(** * BM25 retrieval and TREC evaluation: a shallow embedding

    The development follows the three Python modules of the repository:
    - [ir_system.py]: [preprocess], [build_index], [score_query] and the
      ranking step of [run_system];
    - [trec_eval.py]: [calculate_metrics], [print_results] and [main];
    - [evaluate_map.py]: [calculate_average_precision].

    Numbers.  Python [int]s are [nat] or [Z].  Python [float]s are modelled
    by exact numbers: rationals ([Q], compared with [==]) wherever the code
    only adds and divides, and reals ([R]) where [math.log] enters.  The
    rounding of IEEE doubles is not modelled.

    Exceptions.  A Python computation that may raise is a value of
    [result A]: either [Ok a] or [Raise e]. *)

From Stdlib Require Import Ascii String QArith Qreals Reals Psatz Lia Sorted.
From stdpp Require Import gmap strings list fin_maps.

Local Open Scope string_scope.
Local Open Scope list_scope.
Local Open Scope stdpp_scope.

(** ** Python exceptions *)

Inductive exn : Type :=
| ZeroDivisionError
| KeyError (key : string)
| IndexError
| ValueError
| OverflowError.

Inductive result (A : Type) : Type :=
| Ok (a : A)
| Raise (e : exn).
Arguments Ok {A} a.
Arguments Raise {A} e.

(** Sequencing: [x ← m; k] runs [m] and, unless it raised, [k]. *)
#[global] Instance result_bind : MBind result := λ A B f m,
  match m with
  | Ok a => f a
  | Raise e => Raise e
  end.

(** [a / b] on numbers: true division, raising on a zero divisor. *)
Definition truediv (a b : Q) : result Q :=
  if Qeq_bool b 0 then Raise ZeroDivisionError else Ok (a / b)%Q.

(** Integers enter float arithmetic through these injections. *)
Definition of_nat (n : nat) : Q := inject_Z (Z.of_nat n).

(** The conversion of an unbounded [int] operand of a float operation.  It
    rounds to the nearest double; from [2^1024 - 2^970] on, in absolute
    value, the nearest double would be [2^1024], beyond the largest one, and
    the conversion raises [OverflowError]. *)
Definition float_int_limit : Z := 2 ^ 1024 - 2 ^ 970.

Definition float_of_int (n : Z) : result Q :=
  if (Z.abs n <? float_int_limit)%Z then Ok (inject_Z n)
  else Raise OverflowError.

(** ** [sorted]: a stable sort

    Python's [sorted] is stable, also under [reverse=True]: elements that
    compare equal keep their input order.  [le x y] says that [x] may stand
    before [y].  Insertion from the right end places an element before the
    first one it may precede, so an earlier input element stays ahead of any
    later one it ties with. *)

Section Sorted.
Context {A : Type} (le : A → A → bool).

Fixpoint insert_sorted (x : A) (l : list A) : list A :=
  match l with
  | [] => [x]
  | y :: l' => if le x y then x :: y :: l' else y :: insert_sorted x l'
  end.

Fixpoint py_sorted (l : list A) : list A :=
  match l with
  | [] => []
  | x :: l' => insert_sorted x (py_sorted l')
  end.
End Sorted.

(** * ir_system.py *)

(** ** Characters and strings

    A [str] is a [string]: a sequence of code points below 256. *)

Definition code (c : ascii) : N := N_of_ascii c.

Definition in_range (lo hi : N) (c : ascii) : bool :=
  (lo <=? code c)%N && (code c <=? hi)%N.

(** [str.lower] on one code point: A-Z, and the Latin-1 capitals. *)
Definition lower_char (c : ascii) : ascii :=
  if in_range 65 90 c || in_range 192 214 c || in_range 216 222 c
  then ascii_of_N (code c + 32)
  else c.

Fixpoint lower (s : string) : string :=
  match s with
  | EmptyString => EmptyString
  | String c s' => String (lower_char c) (lower s')
  end.

(** Whitespace as [\s] and [str.split] see it. *)
Definition is_space (c : ascii) : bool :=
  in_range 9 13 c || in_range 28 32 c
  || (code c =? 133)%N || (code c =? 160)%N.

(** The class [a-z0-9\s] of the regular expression. *)
Definition keeps (c : ascii) : bool :=
  in_range 97 122 c || in_range 48 57 c || is_space c.

(** [re.sub(r'[^a-z0-9\s]', ' ', text)] *)
Fixpoint re_sub_non_alnum (s : string) : string :=
  match s with
  | EmptyString => EmptyString
  | String c s' =>
      String (if keeps c then c else " "%char) (re_sub_non_alnum s')
  end.

(** [text.split()]: maximal runs of non-whitespace; [cur] is the run being
    read. *)
Fixpoint split_from (cur : string) (s : string) : list string :=
  match s with
  | EmptyString => if String.eqb cur "" then [] else [cur]
  | String c s' =>
      if is_space c
      then (if String.eqb cur "" then split_from "" s'
            else cur :: split_from "" s')
      else split_from (cur +:+ String c "") s'
  end.

Definition split (s : string) : list string := split_from "" s.

(** ** The environment of [preprocess]

    [STOPWORDS] is the module-level set loaded once from the stopword file.
    [nltk] is what [from nltk.stem import PorterStemmer] gives: [Some stem]
    with [stem] the function [PorterStemmer().stem] when the package is
    importable, [None] when the import raises [ImportError]. *)

Record env : Type := Env {
  STOPWORDS : gset string;
  nltk : option (string → string)
}.

(** Step 3 of [preprocess]: the comprehension
    [[t for t in tokens if t not in STOPWORDS and len(t) > 1]]. *)
Definition keep_token (E : env) (t : string) : bool :=
  bool_decide (t ∉ STOPWORDS E) && (1 <? String.length t)%nat.

Definition preprocess (E : env) (text : string) (stemming : bool)
  : list string :=
  if String.eqb text "" then []
  else
    let text := lower text in
    let text := re_sub_non_alnum text in
    let tokens := split text in
    let tokens := List.filter (keep_token E) tokens in
    match nltk E with
    | Some stem => stem <$> tokens
    | None => tokens
    end.

(** ** Indexing *)

(** One line of the corpus file, parsed. *)
Record document : Type := Document {
  _id : string;
  title : string;
  text : string
}.

(** [collections.Counter(tokens)]: the count of each token, in the order of
    first occurrence. *)
Fixpoint counter_add (t : string) (c : list (string * nat))
  : list (string * nat) :=
  match c with
  | [] => [(t, 1%nat)]
  | (t', n) :: c' =>
      if String.eqb t' t then (t', S n) :: c' else (t', n) :: counter_add t c'
  end.

Definition Counter (tokens : list string) : list (string * nat) :=
  fold_left (λ c t, counter_add t c) tokens [].

(** The loop variables of [build_index]. *)
Record index_state : Type := IndexState {
  inverted_index : gmap string (list (string * nat));
  doc_lengths : gmap string nat;
  total_tokens : nat;
  num_docs : nat
}.

(** [inverted_index[term].append((doc_id, tf))] on a [defaultdict(list)]. *)
Definition append_posting (doc_id : string)
    (idx : gmap string (list (string * nat))) (entry : string * nat)
  : gmap string (list (string * nat)) :=
  let '(term, tf) := entry in
  <[term := default [] (idx !! term) ++ [(doc_id, tf)]]> idx.

(** The body of the loop over the corpus lines. *)
Definition index_document (E : env) (use_full_text : bool)
    (st : index_state) (data : document) : index_state :=
  let doc_id := _id data in
  let content := title data in
  let content :=
    if use_full_text then content +:+ " " +:+ text data else content in
  let tokens := preprocess E content true in
  let length := List.length tokens in
  let term_counts := Counter tokens in
  {| inverted_index :=
       fold_left (append_posting doc_id) term_counts (inverted_index st);
     doc_lengths := <[doc_id := length]> (doc_lengths st);
     total_tokens := (total_tokens st + length)%nat;
     num_docs := S (num_docs st) |}.

Definition build_index (E : env) (corpus : list document)
    (use_full_text : bool)
  : gmap string (list (string * nat)) * gmap string nat * Q * nat :=
  let st :=
    fold_left (index_document E use_full_text) corpus
      (IndexState ∅ ∅ 0 0) in
  let avg_doc_length :=
    if (0 <? num_docs st)%nat
    then (of_nat (total_tokens st) / of_nat (num_docs st))%Q
    else 0%Q in
  (inverted_index st, doc_lengths st, avg_doc_length, num_docs st).

(** ** Retrieval and ranking *)

Definition k1 : Q := 12 # 10.
Definition b : Q := 3 # 4.

(** [math.log] raises [ValueError] outside its domain. *)
Definition math_log (x : Q) : result R :=
  if Qle_bool x 0 then Raise ValueError else Ok (ln (Q2R x)).

(** The idf of a term found in [n_docs_with_term] of [num_docs] documents,
    as [score_query] computes it.  The divisor is at least 0.5, so only the
    logarithm can raise. *)
Definition idf (num_docs n_docs_with_term : nat) : result R :=
  math_log
    ((of_nat num_docs - of_nat n_docs_with_term + (1 # 2))
       / (of_nat n_docs_with_term + (1 # 2)) + 1)%Q.

(** [scores[doc_id] += x] on a [defaultdict(float)]: a new key starts from
    [0.0] and goes last in iteration order. *)
Fixpoint scores_add (doc_id : string) (x : R) (scores : list (string * R))
  : list (string * R) :=
  match scores with
  | [] => [(doc_id, (0 + x)%R)]
  | (d, s) :: rest =>
      if String.eqb d doc_id then (d, (s + x)%R) :: rest
      else (d, s) :: scores_add doc_id x rest
  end.

(** The inner loop of [score_query], over the postings of one term. *)
Fixpoint score_postings (idf : R) (doc_lengths : gmap string nat)
    (avg_doc_length : Q) (postings : list (string * nat))
    (scores : list (string * R)) : result (list (string * R)) :=
  match postings with
  | [] => Ok scores
  | (doc_id, tf) :: rest =>
      doc_len ← match doc_lengths !! doc_id with
                | Some n => Ok n
                | None => Raise (KeyError doc_id)
                end;
      let numerator := (of_nat tf * (k1 + 1))%Q in
      ratio ← truediv (of_nat doc_len) avg_doc_length;
      let denominator := (of_nat tf + k1 * (1 - b + b * ratio))%Q in
      frac ← truediv numerator denominator;
      score_postings idf doc_lengths avg_doc_length rest
        (scores_add doc_id (idf * Q2R frac)%R scores)
  end.

(** The outer loop of [score_query], over the query tokens. *)
Fixpoint score_terms (query_tokens : list string)
    (inverted_index : gmap string (list (string * nat)))
    (doc_lengths : gmap string nat) (avg_doc_length : Q) (num_docs : nat)
    (scores : list (string * R)) : result (list (string * R)) :=
  match query_tokens with
  | [] => Ok scores
  | term :: rest =>
      match inverted_index !! term with
      | None =>
          score_terms rest inverted_index doc_lengths avg_doc_length
            num_docs scores
      | Some postings =>
          let n_docs_with_term := List.length postings in
          idf ← idf num_docs n_docs_with_term;
          scores ← score_postings idf doc_lengths avg_doc_length postings
                     scores;
          score_terms rest inverted_index doc_lengths avg_doc_length
            num_docs scores
      end
  end.

Definition score_query (query_tokens : list string)
    (inverted_index : gmap string (list (string * nat)))
    (doc_lengths : gmap string nat) (avg_doc_length : Q) (num_docs : nat)
  : result (list (string * R)) :=
  score_terms query_tokens inverted_index doc_lengths avg_doc_length
    num_docs [].

(** The key of the ranking sort, under [reverse=True]: [x] may stand before
    [y] when its score is at least that of [y]. *)
Definition score_ge (x y : string * R) : bool :=
  if Rle_dec (snd y) (snd x) then true else false.

(** [enumerate(l, start)] *)
Fixpoint enumerate {A : Type} (l : list A) (start : nat) : list (nat * A) :=
  match l with
  | [] => []
  | x :: l' => (start, x) :: enumerate l' (S start)
  end.

(** "Sort and Rank (Top 100)" in [run_system]: the rows
    [(q_id, doc_id, rank, score)] appended to [results] for one query. *)
Definition sorted_docs (doc_scores : list (string * R))
  : list (string * R) :=
  take 100 (py_sorted score_ge doc_scores).

Definition rank_rows (q_id : string) (doc_scores : list (string * R))
  : list (string * string * nat * R) :=
  List.map (λ '(rank, (doc_id, score)), (q_id, doc_id, rank, score))
    (enumerate (sorted_docs doc_scores) 1).

(** The body of the query loop of [run_system], after the query filter. *)
Definition run_query (E : env) (q_id q_text : string)
    (index : gmap string (list (string * nat)))
    (doc_lens : gmap string nat) (avg_len : Q) (N : nat)
  : result (list (string * string * nat * R)) :=
  let q_tokens := preprocess E q_text true in
  doc_scores ← score_query q_tokens index doc_lens avg_len N;
  Ok (rank_rows q_id doc_scores).

(** * trec_eval.py *)

(** A judged query maps to the set of its relevant documents; a run maps a
    query to its rows [(doc_id, rank, score)], in the order [load_results]
    left them. *)
Abbreviation row := (string * Z * Q)%type.

Definition doc_id_of (r : row) : string := r.1.1.
Definition rank_of (r : row) : Z := r.1.2.

(** [l[i]] on a list *)
Definition py_index {A : Type} (l : list A) (i : nat) : result A :=
  match l !! i with
  | Some x => Ok x
  | None => Raise IndexError
  end.

(** ** The blocks of the loop body of [calculate_metrics] *)

(** "Calculate metrics for this query": the loop filling
    [precision_at_ranks] and [recall_at_ranks].  The result is
    [(rel_ret, precision_at_ranks, recall_at_ranks)]. *)
Fixpoint at_ranks_loop (relevant_docs : gset string) (num_relevant : nat)
    (retrieved_docs : list row) (i rel_ret : nat)
    (precision_at_ranks recall_at_ranks : list Q)
  : result (nat * list Q * list Q) :=
  match retrieved_docs with
  | [] => Ok (rel_ret, precision_at_ranks, recall_at_ranks)
  | (doc_id, rank, score) :: rest =>
      let rel_ret :=
        if bool_decide (doc_id ∈ relevant_docs) then S rel_ret else rel_ret in
      precision ← truediv (of_nat rel_ret) (of_nat (i + 1));
      recall ← truediv (of_nat rel_ret) (of_nat num_relevant);
      at_ranks_loop relevant_docs num_relevant rest (S i) rel_ret
        (precision_at_ranks ++ [precision]) (recall_at_ranks ++ [recall])
  end.

Definition at_ranks (relevant_docs : gset string) (retrieved_docs : list row)
  : result (nat * list Q * list Q) :=
  at_ranks_loop relevant_docs (size relevant_docs) retrieved_docs 0 0 [] [].

(** "Average Precision (AP)": the loop, with result [ap_sum], then the
    guarded division. *)
Fixpoint ap_loop (relevant_docs : gset string) (retrieved_docs : list row)
    (i rel_found : nat) (ap_sum : Q) : result Q :=
  match retrieved_docs with
  | [] => Ok ap_sum
  | (doc_id, rank, score) :: rest =>
      if bool_decide (doc_id ∈ relevant_docs) then
        let rel_found := S rel_found in
        term ← truediv (of_nat rel_found) (of_nat (i + 1));
        ap_loop relevant_docs rest (S i) rel_found (ap_sum + term)%Q
      else ap_loop relevant_docs rest (S i) rel_found ap_sum
  end.

Definition average_precision (relevant_docs : gset string)
    (retrieved_docs : list row) : result Q :=
  let num_relevant := size relevant_docs in
  ap_sum ← ap_loop relevant_docs retrieved_docs 0 0 0%Q;
  if (0 <? num_relevant)%nat then truediv ap_sum (of_nat num_relevant)
  else Ok 0%Q.

(** "Precision at fixed ranks": [precision_at_ranks[k-1]] when the list is
    longer than [k-1], else [0.0]. *)
Definition precision_at (precision_at_ranks : list Q) (k : nat) : result Q :=
  if (k - 1 <? List.length precision_at_ranks)%nat
  then py_index precision_at_ranks (k - 1)
  else Ok 0%Q.

(** "Recall": [recall_at_ranks[-1]] unless the list is empty. *)
Definition final_recall_of (recall_at_ranks : list Q) : result Q :=
  match recall_at_ranks with
  | [] => Ok 0%Q
  | _ => py_index recall_at_ranks (List.length recall_at_ranks - 1)
  end.

(** "R-precision": the guarded loop over [range(min(...))]. *)
Fixpoint r_retrieved_loop (relevant_docs : gset string)
    (retrieved_docs : list row) (range : list nat) (r_retrieved : nat)
  : result nat :=
  match range with
  | [] => Ok r_retrieved
  | i :: range' =>
      entry ← py_index retrieved_docs i;
      r_retrieved_loop relevant_docs retrieved_docs range'
        (if bool_decide (doc_id_of entry ∈ relevant_docs)
         then S r_retrieved else r_retrieved)
  end.

Definition r_precision (relevant_docs : gset string)
    (retrieved_docs : list row) : result Q :=
  let num_relevant := size relevant_docs in
  if (num_relevant <=? List.length retrieved_docs)%nat then
    r_retrieved ←
      r_retrieved_loop relevant_docs retrieved_docs
        (seq 0 (Nat.min num_relevant (List.length retrieved_docs))) 0;
    truediv (of_nat r_retrieved) (of_nat num_relevant)
  else Ok 0%Q.

(** "Reciprocal Rank": the loop with [break].  In [1.0 / rank] the rank, an
    [int] of any size read from the results file, is first converted to a
    float, then tested for zero. *)
Fixpoint reciprocal_rank (relevant_docs : gset string)
    (retrieved_docs : list row) : result Q :=
  match retrieved_docs with
  | [] => Ok 0%Q
  | (doc_id, rank, score) :: rest =>
      if bool_decide (doc_id ∈ relevant_docs)
      then divisor ← float_of_int rank; truediv 1 divisor
      else reciprocal_rank relevant_docs rest
  end.

(** The dictionary stored under [query_metrics[query_id]]. *)
Record query_record : Type := QueryRecord {
  q_ap : Q;
  q_P_5 : Q;
  q_P_10 : Q;
  q_P_30 : Q;
  q_recall : Q;
  q_Rprec : Q;
  q_recip_rank : Q;
  q_num_rel : nat;
  q_num_ret : nat;
  q_num_rel_ret : nat
}.

(** Everything one evaluated query computes, in source order. *)
Definition evaluate_query (relevant_docs : gset string)
    (retrieved_docs : list row) : result query_record :=
  let num_relevant := size relevant_docs in
  let num_retrieved := List.length retrieved_docs in
  '(rel_ret, precision_at_ranks, recall_at_ranks) ←
    at_ranks relevant_docs retrieved_docs;
  ap ← average_precision relevant_docs retrieved_docs;
  p5 ← precision_at precision_at_ranks 5;
  p10 ← precision_at precision_at_ranks 10;
  p30 ← precision_at precision_at_ranks 30;
  final_recall ← final_recall_of recall_at_ranks;
  r_prec ← r_precision relevant_docs retrieved_docs;
  recip_rank ← reciprocal_rank relevant_docs retrieved_docs;
  Ok {| q_ap := ap; q_P_5 := p5; q_P_10 := p10; q_P_30 := p30;
        q_recall := final_recall; q_Rprec := r_prec;
        q_recip_rank := recip_rank; q_num_rel := num_relevant;
        q_num_ret := num_retrieved; q_num_rel_ret := rel_ret |}.

(** ** [calculate_metrics] *)

(** The accumulators of the loop over the queries. *)
Record totals : Type := Totals {
  query_metrics : gmap string query_record;
  total_queries : nat;
  total_relevant : nat;
  total_retrieved : nat;
  total_rel_ret : nat;
  sum_ap : Q;
  sum_p5 : Q;
  sum_p10 : Q;
  sum_p30 : Q;
  sum_recall : Q;
  sum_rprec : Q;
  sum_recip_rank : Q
}.

Definition totals0 : totals := Totals ∅ 0 0 0 0 0 0 0 0 0 0 0.

(** One iteration of [for query_id in sorted(qrels.keys())]. *)
Definition query_step (qrels : gmap string (gset string))
    (results : gmap string (list row)) (t : totals) (query_id : string)
  : result totals :=
  match results !! query_id with
  | None => Ok t
  | Some retrieved_docs =>
      relevant_docs ← match qrels !! query_id with
                      | Some s => Ok s
                      | None => Raise (KeyError query_id)
                      end;
      if bool_decide (relevant_docs = ∅) then Ok t
      else
        m ← evaluate_query relevant_docs retrieved_docs;
        Ok {| query_metrics := <[query_id := m]> (query_metrics t);
              total_queries := total_queries t + 1;
              total_relevant := total_relevant t + q_num_rel m;
              total_retrieved := total_retrieved t + q_num_ret m;
              total_rel_ret := total_rel_ret t + q_num_rel_ret m;
              sum_ap := (sum_ap t + q_ap m)%Q;
              sum_p5 := (sum_p5 t + q_P_5 m)%Q;
              sum_p10 := (sum_p10 t + q_P_10 m)%Q;
              sum_p30 := (sum_p30 t + q_P_30 m)%Q;
              sum_recall := (sum_recall t + q_recall m)%Q;
              sum_rprec := (sum_rprec t + q_Rprec m)%Q;
              sum_recip_rank := (sum_recip_rank t + q_recip_rank m)%Q |}
  end.

Fixpoint query_loop (qrels : gmap string (gset string))
    (results : gmap string (list row)) (query_ids : list string) (t : totals)
  : result totals :=
  match query_ids with
  | [] => Ok t
  | query_id :: rest =>
      t ← query_step qrels results t query_id;
      query_loop qrels results rest t
  end.

(** [sorted(d.keys())] for a dictionary keyed by strings. *)
Definition sorted_keys {V : Type} (d : gmap string V) : list string :=
  py_sorted String.leb (fst <$> map_to_list d).

(** "Calculate overall metrics": [all_metrics] is filled only when some
    query was evaluated. *)
Definition overall (t : totals) : gmap string Q :=
  if (0 <? total_queries t)%nat then
    let n := of_nat (total_queries t) in
    <["num_rel_ret" := of_nat (total_rel_ret t)]>
    (<["num_ret" := of_nat (total_retrieved t)]>
    (<["num_rel" := of_nat (total_relevant t)]>
    (<["num_q" := of_nat (total_queries t)]>
    (<["recip_rank" := (sum_recip_rank t / n)%Q]>
    (<["Rprec" := (sum_rprec t / n)%Q]>
    (<["recall" := (sum_recall t / n)%Q]>
    (<["P_30" := (sum_p30 t / n)%Q]>
    (<["P_10" := (sum_p10 t / n)%Q]>
    (<["P_5" := (sum_p5 t / n)%Q]>
    (<["map" := (sum_ap t / n)%Q]> ∅))))))))))
  else ∅.

Definition calculate_metrics (qrels : gmap string (gset string))
    (results : gmap string (list row))
  : result (gmap string Q * gmap string query_record) :=
  t ← query_loop qrels results (sorted_keys qrels) totals0;
  Ok (overall t, query_metrics t).

(** ** [print_results] and [main] *)

(** What the program writes: a metric line (label, query id or [all],
    value; the fixed-point formatting is not modelled) or the message of
    the handler in [main]. *)
Inductive output : Type :=
| Line (label query_id : string) (value : Q)
| ErrorLine (e : exn).

(** One of the seven per-query loops of [print_results]. *)
Definition print_per_query (label : string) (field : query_record → Q)
    (query_metrics : gmap string query_record) : list output :=
  omap (λ query_id,
          (λ metrics, Line label query_id (field metrics))
            <$> query_metrics !! query_id)
    (sorted_keys query_metrics).

(** The prints of the overall averages, in order: each reads
    [all_metrics[key]], and the first missing key raises, after the lines
    before it were written. *)
Fixpoint print_overall (all_metrics : gmap string Q) (keys : list string)
  : list output * result () :=
  match keys with
  | [] => ([], Ok ())
  | key :: keys' =>
      match all_metrics !! key with
      | None => ([], Raise (KeyError key))
      | Some v =>
          let '(lines, r) := print_overall all_metrics keys' in
          (Line key "all" v :: lines, r)
      end
  end.

Definition overall_keys : list string :=
  ["map"; "Rprec"; "P_5"; "P_10"; "P_30"; "recall"; "recip_rank";
   "num_q"; "num_rel"; "num_ret"; "num_rel_ret"].

Definition print_results (all_metrics : gmap string Q)
    (query_metrics : gmap string query_record) : list output * result () :=
  let per_query :=
    print_per_query "map" q_ap query_metrics
    ++ print_per_query "Rprec" q_Rprec query_metrics
    ++ print_per_query "P_5" q_P_5 query_metrics
    ++ print_per_query "P_10" q_P_10 query_metrics
    ++ print_per_query "P_30" q_P_30 query_metrics
    ++ print_per_query "recall" q_recall query_metrics
    ++ print_per_query "recip_rank" q_recip_rank query_metrics in
  let '(lines, r) := print_overall all_metrics overall_keys in
  (per_query ++ lines, r).

(** [main], from the point where both files are loaded: the [try] block
    and its [except Exception] handler, which prints the error and exits
    with status 1.  The result is the output and the exit status. *)
Definition main (qrels : gmap string (gset string))
    (results : gmap string (list row)) : list output * Z :=
  match calculate_metrics qrels results with
  | Raise e => ([ErrorLine e], 1%Z)
  | Ok (all_metrics, query_metrics) =>
      match print_results all_metrics query_metrics with
      | (lines, Ok _) => (lines, 0%Z)
      | (lines, Raise e) => (lines ++ [ErrorLine e], 1%Z)
      end
  end.

(** * evaluate_map.py *)

Module EvaluateMap.

(** The loop of [calculate_average_precision]; the result is
    [(relevant_retrieved, precision_sum)]. *)
Fixpoint precision_loop (relevant_docs : gset string)
    (retrieved_docs : list row) (i relevant_retrieved : nat)
    (precision_sum : Q) : result (nat * Q) :=
  match retrieved_docs with
  | [] => Ok (relevant_retrieved, precision_sum)
  | (doc_id, rank, score) :: rest =>
      if bool_decide (doc_id ∈ relevant_docs) then
        let relevant_retrieved := S relevant_retrieved in
        precision_at_i ←
          truediv (of_nat relevant_retrieved) (of_nat (i + 1));
        precision_loop relevant_docs rest (S i) relevant_retrieved
          (precision_sum + precision_at_i)%Q
      else
        precision_loop relevant_docs rest (S i) relevant_retrieved
          precision_sum
  end.

Definition calculate_average_precision (relevant_docs : gset string)
    (retrieved_docs : list row) : result Q :=
  if bool_decide (relevant_docs = ∅) then Ok 0%Q
  else
    '(relevant_retrieved, precision_sum) ←
      precision_loop relevant_docs retrieved_docs 0 0 0%Q;
    if (relevant_retrieved =? 0)%nat then Ok 0%Q
    else truediv precision_sum (of_nat (size relevant_docs)).

End EvaluateMap.

(** * Definitions used in the statements *)

(** Porter's step 1a on a plural: a final [s] that does not follow another
    [s] is removed.  On the word [cats] this is what [PorterStemmer().stem]
    returns. *)
Fixpoint strip_plural (w : string) : string :=
  match w with
  | String c1 (String "s" EmptyString) =>
      if Ascii.eqb c1 "s" then w else String c1 EmptyString
  | String c w' => String c (strip_plural w')
  | EmptyString => EmptyString
  end.

(** The columns of a result row. *)
Definition row_query (r : string * string * nat * R) : string := r.1.1.1.
Definition row_rank (r : string * string * nat * R) : nat := r.1.2.
Definition row_doc_score (r : string * string * nat * R) : string * R :=
  (r.1.1.2, r.2).

(** The number of relevant documents in a list of rows. *)
Definition relevant_count (relevant_docs : gset string) (l : list row) : nat :=
  List.length
    (List.filter (λ r, bool_decide (doc_id_of r ∈ relevant_docs)) l).

(** The value of [rel_ret] after each retrieved document, from [rel_ret]. *)
Fixpoint running_counts (relevant_docs : gset string) (rel_ret : nat)
    (l : list row) : list nat :=
  match l with
  | [] => []
  | r :: l' =>
      let rel_ret :=
        if bool_decide (doc_id_of r ∈ relevant_docs)
        then S rel_ret else rel_ret in
      rel_ret :: running_counts relevant_docs rel_ret l'
  end.

(** The scenario of a query with relevant documents D1 and D3 and the run
    D2, D1, D4, D3, D5. *)
Definition example_relevant : gset string := {[ "D1"; "D3" ]}.
Definition example_retrieved : list row :=
  [("D2", 1%Z, 5%Q); ("D1", 2%Z, 4%Q); ("D4", 3%Z, 3%Q); ("D3", 4%Z, 2%Q);
   ("D5", 5%Z, 1%Q)].

(** The characters of the class [a-z0-9]. *)
Definition is_alnum (c : ascii) : bool :=
  in_range 97 122 c || in_range 48 57 c.

Fixpoint all_chars (P : ascii → bool) (s : string) : bool :=
  match s with
  | EmptyString => true
  | String c s' => P c && all_chars P s'
  end.

(** The tokens [build_index] counts for a document. *)
Definition document_tokens (E : env) (use_full_text : bool) (data : document)
  : list string :=
  preprocess E
    (if use_full_text then title data +:+ " " +:+ text data else title data)
    true.

(** How often a term occurs among tokens. *)
Definition term_frequency (term : string) (tokens : list string) : nat :=
  List.length (List.filter (String.eqb term) tokens).

(** The documents of a corpus that contain a term, in corpus order, each
    with the frequency of the term. *)
Definition postings_of (E : env) (use_full_text : bool)
    (corpus : list document) (term : string) : list (string * nat) :=
  omap (λ data,
          let tf := term_frequency term (document_tokens E use_full_text data) in
          if (0 <? tf)%nat then Some (_id data, tf) else None)
    corpus.

(** The count a [Counter] holds for a key, if any. *)
Fixpoint counter_get (c : list (string * nat)) (t : string) : option nat :=
  match c with
  | [] => None
  | (t', n) :: c' => if String.eqb t' t then Some n else counter_get c' t
  end.

(** The number of tokens of all documents of a corpus. *)
Definition corpus_length (E : env) (use_full_text : bool)
    (corpus : list document) : nat :=
  sum_list ((λ data, List.length (document_tokens E use_full_text data))
              <$> corpus).

(** The last document of a corpus with a given id. *)
Definition last_document (corpus : list document) (doc_id : string)
  : option document :=
  last (filter (λ data, _id data = doc_id) corpus).

(** The invariant of the score mapping: distinct keys, positive scores. *)
Definition scores_ok (scores : list (string * R)) : Prop :=
  NoDup scores.*1 ∧ Forall (λ p, (0 < p.2)%R) scores.

(** The entries of a score mapping that carry exactly the score [s]. *)
Definition tied_with (s : R) (p : string * R) : bool :=
  if Req_dec_T p.2 s then true else false.

(** A query is evaluated when it is judged with a non-empty relevant set
    and has rows in the results. *)
Definition qualifies (qrels : gmap string (gset string))
    (results : gmap string (list row)) (q : string) : Prop :=
  ∃ rel docs, qrels !! q = Some rel ∧ results !! q = Some docs ∧ rel ≠ ∅.

(** The sum of a per-query value over the per-query records. *)
Definition sum_over (f : query_record → Q)
    (metrics : gmap string query_record) : Q :=
  foldr (λ p acc, (f p.2 + acc)%Q) 0%Q (map_to_list metrics).

(** An aggregate that is the mean of a per-query value, and one that is the
    sum of a per-query count. *)
Definition is_mean (all_metrics : gmap string Q) (key : string)
    (f : query_record → Q) (metrics : gmap string query_record) : Prop :=
  ∃ v, all_metrics !! key = Some v
       ∧ (v == sum_over f metrics / of_nat (size metrics))%Q.

Definition is_total (all_metrics : gmap string Q) (key : string)
    (g : query_record → nat) (metrics : gmap string query_record) : Prop :=
  ∃ v, all_metrics !! key = Some v
       ∧ (v == sum_over (λ m, of_nat (g m)) metrics)%Q.

(** The accumulators agree with the records stored so far. *)
Definition totals_ok (t : totals) : Prop :=
  let metrics := query_metrics t in
  total_queries t = size metrics
  ∧ (sum_ap t == sum_over q_ap metrics)%Q
  ∧ (sum_p5 t == sum_over q_P_5 metrics)%Q
  ∧ (sum_p10 t == sum_over q_P_10 metrics)%Q
  ∧ (sum_p30 t == sum_over q_P_30 metrics)%Q
  ∧ (sum_recall t == sum_over q_recall metrics)%Q
  ∧ (sum_rprec t == sum_over q_Rprec metrics)%Q
  ∧ (sum_recip_rank t == sum_over q_recip_rank metrics)%Q
  ∧ (of_nat (total_relevant t)
     == sum_over (λ m, of_nat (q_num_rel m)) metrics)%Q
  ∧ (of_nat (total_retrieved t)
     == sum_over (λ m, of_nat (q_num_ret m)) metrics)%Q
  ∧ (of_nat (total_rel_ret t)
     == sum_over (λ m, of_nat (q_num_rel_ret m)) metrics)%Q.

(** The inputs of the scenario, with one judged query. *)
Definition example_qrels : gmap string (gset string) :=
  {[ "Q1" := example_relevant ]}.
Definition example_results : gmap string (list row) :=
  {[ "Q1" := example_retrieved ]}.

(** Precision at the cutoff [k]: the relevant rows among the first [k], over
    [k], for a run of at least [k] rows; 0 for a shorter run. *)
Definition precision_at_cutoff (relevant_docs : gset string)
    (retrieved_docs : list row) (k : nat) : Q :=
  if (k <=? List.length retrieved_docs)%nat
  then (of_nat (relevant_count relevant_docs (take k retrieved_docs))
        / of_nat k)%Q
  else 0%Q.

(** * The loaders of trec_eval.py and evaluate_map.py

    A file is the list of its lines.  [int] and [float] are Python's
    conversions from strings; they are parameters here: [py_int] and
    [py_float] return the number, or raise [ValueError]. *)

(** [str.strip]: whitespace removed at both ends. *)
Fixpoint lstrip (s : string) : string :=
  match s with
  | EmptyString => EmptyString
  | String c s' => if is_space c then lstrip s' else s
  end.

Fixpoint rstrip (s : string) : string :=
  match s with
  | EmptyString => EmptyString
  | String c s' =>
      match rstrip s' with
      | EmptyString => if is_space c then EmptyString else String c EmptyString
      | r => String c r
      end
  end.

Definition strip (s : string) : string := rstrip (lstrip s).

(** ['\t' in line] *)
Fixpoint contains_char (c : ascii) (s : string) : bool :=
  match s with
  | EmptyString => false
  | String c' s' => Ascii.eqb c' c || contains_char c s'
  end.

(** [line.split('\t')]: the fields between separators, empty ones too. *)
Fixpoint split_on_from (sep : ascii) (cur : string) (s : string)
  : list string :=
  match s with
  | EmptyString => [cur]
  | String c s' =>
      if Ascii.eqb c sep then cur :: split_on_from sep "" s'
      else split_on_from sep (cur +:+ String c "") s'
  end.

Definition split_on (sep : ascii) (s : string) : list string :=
  split_on_from sep "" s.

Definition tab : ascii := "009"%char.

(** The sort key of [load_results]: [x[1]], the rank. *)
Definition rank_le (x y : row) : bool := (rank_of x <=? rank_of y)%Z.

Section Loaders.
Context (py_int : string → result Z) (py_float : string → result Q).

(** The loop of [load_results] over the lines of the results file. *)
Fixpoint load_results_loop (lines : list string)
    (results : gmap string (list row)) : result (gmap string (list row)) :=
  match lines with
  | [] => Ok results
  | line :: rest =>
      let line := strip line in
      if String.eqb line "" then load_results_loop rest results
      else
        let parts := split line in
        if (6 <=? List.length parts)%nat then
          query_id ← py_index parts 0;
          doc_id ← py_index parts 2;
          field ← py_index parts 3;
          rank ← py_int field;
          field ← py_index parts 4;
          score ← py_float field;
          load_results_loop rest
            (<[query_id :=
                 default [] (results !! query_id) ++ [(doc_id, rank, score)]]>
               results)
        else load_results_loop rest results
  end.

(** [load_results], the same function in both programs: the loop, then
    every run sorted by rank with the stable [list.sort]. *)
Definition load_results (lines : list string)
  : result (gmap string (list row)) :=
  results ← load_results_loop lines (∅ : gmap string (list row));
  Ok ((py_sorted rank_le <$> results) : gmap string (list row)).

(** [qrels[query_id].add(doc_id)] on a [defaultdict(set)]. *)
Definition add_relevant (query_id doc_id : string)
    (qrels : gmap string (gset string)) : gmap string (gset string) :=
  <[query_id := default ∅ (qrels !! query_id) ∪ {[ doc_id ]}]> qrels.

(** The loop of [load_qrels] of trec_eval.py; [line_num] counts the lines
    read so far. *)
Fixpoint load_qrels_loop (line_num : nat) (lines : list string)
    (qrels : gmap string (gset string)) : result (gmap string (gset string)) :=
  match lines with
  | [] => Ok qrels
  | line :: rest =>
      let line := strip line in
      if String.eqb line "" then load_qrels_loop (S line_num) rest qrels
      else if (line_num =? 0)%nat && String.prefix "query-id" line
      then load_qrels_loop (S line_num) rest qrels
      else
        let parts :=
          if contains_char tab line then split_on tab line else split line in
        if (3 <=? List.length parts)%nat then
          field ← py_index parts 0;
          let query_id := strip field in
          field ← py_index parts (List.length parts - 2);
          let doc_id := strip field in
          field ← py_index parts (List.length parts - 1);
          relevance ← py_int (strip field);
          if (0 <? relevance)%Z
          then load_qrels_loop (S line_num) rest
                 (add_relevant query_id doc_id qrels)
          else load_qrels_loop (S line_num) rest qrels
        else load_qrels_loop (S line_num) rest qrels
  end.

Definition load_qrels (lines : list string)
  : result (gmap string (gset string)) :=
  load_qrels_loop 0 lines ∅.

End Loaders.

(** A conversion that reads unsigned decimal numerals, as [int] does on
    them, and raises on anything else. *)
Fixpoint digits_value (acc : Z) (s : string) : result Z :=
  match s with
  | EmptyString => Ok acc
  | String c s' =>
      if in_range 48 57 c
      then digits_value (10 * acc + Z.of_N (code c) - 48) s'
      else Raise ValueError
  end.

Definition int_of_digits (s : string) : result Z :=
  match s with
  | EmptyString => Raise ValueError
  | _ => digits_value 0 s
  end.

Definition float_of_digits (s : string) : result Q :=
  n ← int_of_digits s; Ok (inject_Z n).

(** A results file of three lines, one of them blank. *)
Definition example_results_file : list string :=
  ["1 Q0 D7 2 11 run"; ""; "1 Q0 D4 1 12 run"].

(** A judgment file with a header, a relevant and a non-relevant pair. *)
Definition example_qrels_file : list string :=
  [String.concat (String tab "") ["query-id"; "corpus-id"; "score"];
   String.concat (String tab "") ["1"; "D4"; "1"];
   String.concat (String tab "") ["1"; "D7"; "0"]].

(** * evaluate_map.py: judgments and the mean

    [calculate_map] iterates over [qrels] itself, so here the order of its
    keys shows: in this module a dictionary keyed by query id is the list of
    its items in insertion order. *)

Module EvaluateMapRun.

(** [qrels[query_id].add(doc_id)] on a [defaultdict(set)]. *)
Fixpoint add_relevant (query_id doc_id : string)
    (qrels : list (string * gset string)) : list (string * gset string) :=
  match qrels with
  | [] => [(query_id, {[ doc_id ]})]
  | (q, s) :: rest =>
      if String.eqb q query_id then (q, s ∪ {[ doc_id ]}) :: rest
      else (q, s) :: add_relevant query_id doc_id rest
  end.

(** [query_aps[query_id] = ap] *)
Fixpoint set_item (query_id : string) (ap : Q) (query_aps : list (string * Q))
  : list (string * Q) :=
  match query_aps with
  | [] => [(query_id, ap)]
  | (q, v) :: rest =>
      if String.eqb q query_id then (q, ap) :: rest
      else (q, v) :: set_item query_id ap rest
  end.

Section Loader.
Context (py_int : string → result Z).

(** The loop of [load_qrels] of evaluate_map.py. *)
Fixpoint load_qrels_loop (line_num : nat) (lines : list string)
    (qrels : list (string * gset string))
  : result (list (string * gset string)) :=
  match lines with
  | [] => Ok qrels
  | line :: rest =>
      let line := strip line in
      if (line_num =? 0)%nat && String.prefix "query-id" line
      then load_qrels_loop (S line_num) rest qrels
      else if String.eqb line "" then load_qrels_loop (S line_num) rest qrels
      else
        let parts := split_on tab line in
        if (3 <=? List.length parts)%nat then
          field ← py_index parts 0;
          let query_id := strip field in
          field ← py_index parts 1;
          let doc_id := strip field in
          field ← py_index parts 2;
          relevance ← py_int (strip field);
          if (0 <? relevance)%Z
          then load_qrels_loop (S line_num) rest
                 (add_relevant query_id doc_id qrels)
          else load_qrels_loop (S line_num) rest qrels
        else load_qrels_loop (S line_num) rest qrels
  end.

Definition load_qrels (lines : list string)
  : result (list (string * gset string)) :=
  load_qrels_loop 0 lines [].

End Loader.

(** The line [calculate_map] prints for a query: its id, its average
    precision and the two counts. *)
Record query_line : Type := QueryLine {
  line_query : string;
  line_ap : Q;
  line_relevant : nat;
  line_retrieved : nat
}.

(** The loop variables of [calculate_map], and the lines printed. *)
Record map_state : Type := MapState {
  total_ap : Q;
  num_queries : nat;
  query_aps : list (string * Q);
  printed : list query_line
}.

Fixpoint map_loop (qrels : list (string * gset string))
    (results : gmap string (list row)) (st : map_state) : result map_state :=
  match qrels with
  | [] => Ok st
  | (query_id, relevant_docs) :: rest =>
      match results !! query_id with
      | Some retrieved_docs =>
          ap ← EvaluateMap.calculate_average_precision relevant_docs
                 retrieved_docs;
          map_loop rest results
            {| total_ap := (total_ap st + ap)%Q;
               num_queries := num_queries st + 1;
               query_aps := set_item query_id ap (query_aps st);
               printed :=
                 printed st
                 ++ [QueryLine query_id ap (size relevant_docs)
                       (List.length retrieved_docs)] |}
      | None => map_loop rest results st
      end
  end.

(** [calculate_map]: the result is [(map_score, query_aps)], with the lines
    printed on the way. *)
Definition calculate_map (qrels : list (string * gset string))
    (results : gmap string (list row))
  : result (Q * list (string * Q) * list query_line) :=
  st ← map_loop qrels results (MapState 0 0 [] []);
  if (num_queries st =? 0)%nat then Ok (0%Q, query_aps st, printed st)
  else
    map_score ← truediv (total_ap st) (of_nat (num_queries st));
    Ok (map_score, query_aps st, printed st).

End EvaluateMapRun.

(** The queries [calculate_map] evaluates, in the order of [qrels]: those
    that have rows in the results. *)
Definition evaluated (qrels : list (string * gset string))
    (results : gmap string (list row))
  : list (string * gset string * list row) :=
  omap (λ '(query_id, relevant_docs),
          (λ retrieved_docs, (query_id, relevant_docs, retrieved_docs))
            <$> results !! query_id)
    qrels.

(** The value [calculate_average_precision] returns. *)
Definition average_precision_value (relevant_docs : gset string)
    (retrieved_docs : list row) : Q :=
  match EvaluateMap.calculate_average_precision relevant_docs retrieved_docs
  with
  | Ok ap => ap
  | Raise _ => 0%Q
  end.

(** What [calculate_map] expects of judgments: distinct keys, as in any
    dictionary, and no empty relevant set. *)
Definition judgments_ok (qrels : list (string * gset string)) : Prop :=
  NoDup qrels.*1 ∧ Forall (λ p, p.2 ≠ ∅) qrels.

(** A rank field on which [1.0 / rank] returns: not 0, and within the
    range of a float. *)
Definition rank_in_range (r : row) : Prop :=
  rank_of r ≠ 0%Z ∧ (Z.abs (rank_of r) < float_int_limit)%Z.

(** How [1.0 / rank] fails: on a rank of 0, or on a rank too large for a
    float. *)
Definition rank_error (e : exn) (rank : Z) : Prop :=
  e = ZeroDivisionError ∧ rank = 0%Z
  ∨ e = OverflowError ∧ (float_int_limit <= Z.abs rank)%Z.

(** * Properties of [preprocess] *)

Lemma keep_token_spec E t :
  keep_token E t = true ↔ (1 < String.length t)%nat ∧ t ∉ STOPWORDS E.
Proof.
  unfold keep_token.
  rewrite andb_true_iff, bool_decide_eq_true, Nat.ltb_lt. tauto.
Qed.

(** C4. The [stemming] argument of [preprocess] is never read: the result
    is the same for [True] and for [False], for every text.  Whether the
    tokens are stemmed is decided by the import alone: the result is the
    result of an environment without the stemmer, mapped through the stemmer
    when there is one. *)
Theorem preprocess_stemming_flag_unused (E : env) (text : string) :
  preprocess E text true = preprocess E text false
  ∧ ∀ stemming,
      preprocess E text stemming
      = match nltk E with
        | Some stem =>
            stem <$> preprocess (Env (STOPWORDS E) None) text stemming
        | None => preprocess (Env (STOPWORDS E) None) text stemming
        end.
Proof.
  split; [reflexivity|].
  intros stemming. unfold preprocess. simpl.
  destruct (String.eqb text ""); [by destruct (nltk E)|].
  destruct (nltk E); reflexivity.
Qed.

(** C9, as amended.  The tokens [preprocess] keeps before stemming all have
    length above 1 and are outside the stopword set; the returned sequence
    is that sequence itself when no stemmer is importable, and its image
    under the stemmer otherwise. *)
Theorem preprocess_kept_tokens (E : env) (text : string) (stemming : bool) :
  ∃ kept : list string,
    Forall (λ t, (1 < String.length t)%nat ∧ t ∉ STOPWORDS E) kept
    ∧ preprocess E text stemming
      = match nltk E with
        | Some stem => stem <$> kept
        | None => kept
        end.
Proof.
  unfold preprocess.
  destruct (String.eqb text "").
  - exists []. split; [constructor|]. by destruct (nltk E).
  - exists (List.filter (keep_token E) (split (re_sub_non_alnum (lower text)))).
    split; [|reflexivity].
    apply Forall_forall. intros t Ht.
    apply list_elem_of_In, filter_In in Ht as [_ Ht].
    by apply keep_token_spec.
Qed.

(** C9 as stated fails with a stemmer present: the stem of a kept token can
    be a stopword. *)
Lemma preprocess_returns_stopword :
  let E := Env {[ "cat" ]} (Some strip_plural) in
  preprocess E "Cats!" true = ["cat"]
  ∧ ¬ (∀ t, t ∈ preprocess E "Cats!" true →
         (1 < String.length t)%nat ∧ t ∉ STOPWORDS E).
Proof.
  intros E. split; [reflexivity|].
  intros H. destruct (H "cat") as [_ Hn].
  - change (preprocess E "Cats!" true) with ["cat"]. left.
  - assert (Hin : "cat" ∈ STOPWORDS E) by (subst E; simpl; set_solver).
    exact (Hn Hin).
Qed.

(** * Properties of [score_query] *)

Lemma of_nat_le (n m : nat) : (n ≤ m)%nat → (of_nat n <= of_nat m)%Q.
Proof.
  intros H. unfold of_nat. rewrite <- Zle_Qle. lia.
Qed.

Lemma of_nat_nonneg (n : nat) : (0 <= of_nat n)%Q.
Proof. apply (of_nat_le 0 n). lia. Qed.

Lemma idf_argument_ge_1 (N df : nat) :
  (df ≤ N)%nat →
  (1 <= (of_nat N - of_nat df + (1 # 2)) / (of_nat df + (1 # 2)) + 1)%Q.
Proof.
  intros H.
  pose proof (of_nat_le _ _ H) as Hle.
  pose proof (of_nat_nonneg df) as Hdf.
  generalize dependent (of_nat N). generalize dependent (of_nat df).
  intros d Hd n Hle.
  assert (0 <= (n - d + (1 # 2)) / (d + (1 # 2)))%Q.
  { apply Qle_shift_div_l; lra. }
  lra.
Qed.

(** C6. For a term found in [df] of [N] documents, [1 <= df <= N], the idf
    of [score_query] is computed (the logarithm is within its domain) and is
    not negative. *)
Theorem idf_nonnegative (N df : nat) :
  (1 ≤ df ≤ N)%nat →
  ∃ v : R, idf N df = Ok v ∧ (0 <= v)%R.
Proof.
  intros [_ Hle].
  pose proof (idf_argument_ge_1 N df Hle) as Harg.
  unfold idf, math_log.
  set (x := ((of_nat N - of_nat df + (1 # 2)) / (of_nat df + (1 # 2)) + 1)%Q)
    in *.
  destruct (Qle_bool x 0) eqn:Hx.
  - apply Qle_bool_iff in Hx. lra.
  - eexists. split; [reflexivity|].
    apply Qle_Rle in Harg. rewrite RMicromega.Q2R_1 in Harg.
    rewrite <- ln_1.
    destruct Harg as [Hlt | Heq].
    + left. apply ln_increasing; lra.
    + rewrite <- Heq. lra.
Qed.

Lemma idf_nonnegative_witness :
  (1 ≤ 2 ≤ 3)%nat ∧ ∃ v : R, idf 3 2 = Ok v ∧ (0 <= v)%R.
Proof.
  split; [lia|]. apply (idf_nonnegative 3 2). lia.
Defined.

(** ** The index of a corpus without tokens *)

Lemma score_terms_empty_index query_tokens doc_lens avg_len N scores :
  score_terms query_tokens ∅ doc_lens avg_len N scores = Ok scores.
Proof.
  induction query_tokens as [|term rest IH]; simpl; [reflexivity|].
  by rewrite lookup_empty.
Qed.

Lemma Counter_nil : Counter [] = [].
Proof. reflexivity. Qed.

(** Documents add to [total_tokens] whenever they add postings. *)
Lemma index_loop_no_tokens E full corpus st :
  total_tokens (fold_left (index_document E full) corpus st) = 0%nat →
  total_tokens st = 0%nat
  ∧ inverted_index (fold_left (index_document E full) corpus st)
    = inverted_index st.
Proof.
  revert st. induction corpus as [|data corpus IH]; intros st H; simpl in *.
  - done.
  - destruct (IH _ H) as [Hst' Hidx]. rewrite Hidx. clear IH H Hidx.
    unfold index_document in *. simpl in *.
    destruct (preprocess E _ true) as [|t ts]; simpl in *; [|lia].
    split; [lia|reflexivity].
Qed.

Lemma index_loop_num_docs E full corpus st :
  num_docs (fold_left (index_document E full) corpus st)
  = (num_docs st + List.length corpus)%nat.
Proof.
  revert st. induction corpus as [|data corpus IH]; intros st; simpl.
  - lia.
  - rewrite IH. simpl. lia.
Qed.

Lemma of_nat_eq_0 (n : nat) : (of_nat n == 0)%Q → n = 0%nat.
Proof.
  unfold of_nat, Qeq. simpl. lia.
Qed.

Lemma of_nat_pos (n : nat) : (0 < n)%nat → (0 < of_nat n)%Q.
Proof.
  intros H. unfold of_nat. change 0%Q with (inject_Z 0).
  rewrite <- Zlt_Qlt. lia.
Qed.

Lemma build_index_zero_average E corpus full index doc_lens avg_len N :
  build_index E corpus full = (index, doc_lens, avg_len, N) →
  (avg_len == 0)%Q → index = ∅.
Proof.
  unfold build_index. intros Hb Havg.
  set (st := fold_left _ corpus _) in *.
  injection Hb as <- _ <- _.
  assert (Htot : total_tokens st = 0%nat).
  { destruct (0 <? num_docs st)%nat eqn:Hn.
    - apply Nat.ltb_lt, of_nat_pos in Hn.
      apply of_nat_eq_0.
      assert (Hne : ¬ (of_nat (num_docs st) == 0)%Q) by lra.
      rewrite <- (Qmult_div_r (of_nat (total_tokens st)) _ Hne).
      rewrite Havg. ring.
    - apply Nat.ltb_ge in Hn. subst st.
      rewrite index_loop_num_docs in Hn. simpl in Hn.
      destruct corpus; [reflexivity|simpl in Hn; lia]. }
  destruct (index_loop_no_tokens _ _ _ _ Htot) as [_ Hidx]. exact Hidx.
Qed.

(** C5. On the statistics [build_index] returns, a zero average document
    length means that no document kept a token (an empty corpus is the case
    [N = 0]); then no query term is in the index, [score_query] divides by
    nothing and returns the empty score mapping, for every query. *)
Theorem score_query_zero_average E corpus full index doc_lens avg_len N :
  build_index E corpus full = (index, doc_lens, avg_len, N) →
  (N = 0%nat → (avg_len == 0)%Q)
  ∧ ((avg_len == 0)%Q →
     ∀ query_tokens,
       score_query query_tokens index doc_lens avg_len N = Ok []).
Proof.
  intros Hb. split.
  - intros ->. unfold build_index in Hb.
    injection Hb as _ _ <- Hn. rewrite Hn. reflexivity.
  - intros Havg query_tokens.
    rewrite (build_index_zero_average _ _ _ _ _ _ _ Hb Havg).
    apply score_terms_empty_index.
Qed.

Lemma score_query_zero_average_witness :
  let E := Env {[ "the"; "of" ]} None in
  let corpus := [Document "d1" "The" "of a"] in
  build_index E corpus true = (∅, {[ "d1" := 0%nat ]}, 0 # 1, 1%nat)
  ∧ score_query ["cat"] ∅ {[ "d1" := 0%nat ]} (0 # 1) 1 = Ok [].
Proof.
  intros E corpus.
  assert (Hb : build_index E corpus true
               = (∅, {[ "d1" := 0%nat ]}, 0 # 1, 1%nat))
    by (vm_compute; reflexivity).
  split; [exact Hb|].
  apply (score_query_zero_average E corpus true _ _ _ _ Hb). reflexivity.
Defined.

(** Outside that case the division is unguarded: statistics that
    [build_index] cannot produce make [score_query] raise. *)
Example score_query_unguarded :
  score_query ["cat"] {[ "cat" := [("d1", 1%nat)] ]} {[ "d1" := 1%nat ]} 0 1
  = Raise ZeroDivisionError.
Proof. reflexivity. Qed.

(** * Properties of the ranking step *)

Section SortedFacts.
Context {A : Type} (le : A → A → bool).

Lemma insert_sorted_perm (x : A) (l : list A) :
  insert_sorted le x l ≡ₚ x :: l.
Proof.
  induction l as [|y l IH]; simpl; [reflexivity|].
  destruct (le x y); [reflexivity|].
  rewrite IH. apply Permutation_swap.
Qed.

Lemma py_sorted_perm (l : list A) : py_sorted le l ≡ₚ l.
Proof.
  induction l as [|x l IH]; simpl; [reflexivity|].
  by rewrite insert_sorted_perm, IH.
Qed.

Hypothesis le_total : ∀ x y, le x y = true ∨ le y x = true.
Hypothesis le_trans : ∀ x y z, le x y = true → le y z = true → le x z = true.

Lemma insert_sorted_sorted (x : A) (l : list A) :
  StronglySorted (λ a b, le a b = true) l →
  StronglySorted (λ a b, le a b = true) (insert_sorted le x l).
Proof.
  induction 1 as [|y l Hl IH Hy]; simpl.
  - repeat constructor.
  - destruct (le x y) eqn:Hxy.
    + constructor; [by constructor|].
      constructor; [exact Hxy|].
      eapply Forall_impl; [exact Hy|]. intros z Hz. by eapply le_trans.
    + constructor; [exact IH|].
      rewrite insert_sorted_perm. constructor; [|exact Hy].
      destruct (le_total x y) as [H|H]; [congruence|exact H].
Qed.

Lemma py_sorted_sorted (l : list A) :
  StronglySorted (λ a b, le a b = true) (py_sorted le l).
Proof.
  induction l as [|x l IH]; simpl; [constructor|].
  by apply insert_sorted_sorted.
Qed.
End SortedFacts.

Lemma StronglySorted_weaken {A} (R1 R2 : A → A → Prop) (l : list A) :
  (∀ x y, R1 x y → R2 x y) → StronglySorted R1 l → StronglySorted R2 l.
Proof.
  intros HR. induction 1 as [|x l Hl IH Hx]; constructor; [exact IH|].
  eapply Forall_impl; [exact Hx|]. intros y. apply HR.
Qed.

Lemma score_ge_spec (x y : string * R) :
  score_ge x y = true ↔ (snd y <= snd x)%R.
Proof.
  unfold score_ge. destruct (Rle_dec (snd y) (snd x)); split; auto; discriminate.
Qed.

Lemma score_ge_total x y : score_ge x y = true ∨ score_ge y x = true.
Proof.
  rewrite !score_ge_spec. destruct (Rle_dec (snd y) (snd x)); [by left|].
  right. lra.
Qed.

Lemma score_ge_trans x y z :
  score_ge x y = true → score_ge y z = true → score_ge x z = true.
Proof. rewrite !score_ge_spec. lra. Qed.

Lemma enumerate_length {A} (l : list A) start :
  List.length (enumerate l start) = List.length l.
Proof.
  revert start. induction l as [|x l IH]; intros start; simpl; [done|].
  by rewrite IH.
Qed.

Lemma enumerate_fst {A} (l : list A) start :
  fst <$> enumerate l start = seq start (List.length l).
Proof.
  revert start. induction l as [|x l IH]; intros start; simpl; [done|].
  by rewrite IH.
Qed.

Lemma enumerate_snd {A} (l : list A) start : snd <$> enumerate l start = l.
Proof.
  revert start. induction l as [|x l IH]; intros start; simpl; [done|].
  by rewrite IH.
Qed.

(** C7. The rows of one query are the first 100 entries (all of them when
    there are fewer) of a rearrangement of the scored documents in which no
    score is followed by a larger one, and their ranks are 1, 2, 3, ... in
    output order. *)
Theorem rank_rows_sorted_truncated_dense (q_id : string)
    (doc_scores : list (string * R)) :
  let rows := rank_rows q_id doc_scores in
  ∃ sorted : list (string * R),
    sorted ≡ₚ doc_scores
    ∧ StronglySorted (λ x y, (snd y <= snd x)%R) sorted
    ∧ row_doc_score <$> rows = take 100 sorted
    ∧ List.length rows = Nat.min 100 (List.length doc_scores)
    ∧ row_rank <$> rows = seq 1 (List.length rows)
    ∧ Forall (λ r, row_query r = q_id) rows.
Proof.
  intros rows. exists (py_sorted score_ge doc_scores).
  assert (Hlen : List.length rows = Nat.min 100 (List.length doc_scores)).
  { unfold rows, rank_rows, sorted_docs.
    rewrite length_map, enumerate_length, length_take.
    by rewrite (Permutation_length (py_sorted_perm score_ge doc_scores)). }
  assert (Hfst : (λ '(rank, (doc_id, score)), (q_id, doc_id, rank, score))
                   <$> enumerate (sorted_docs doc_scores) 1 = rows)
    by reflexivity.
  split_and!.
  - apply py_sorted_perm.
  - eapply StronglySorted_weaken;
      [|apply (py_sorted_sorted score_ge score_ge_total score_ge_trans)].
    intros x y. apply score_ge_spec.
  - rewrite <- Hfst, <- list_fmap_compose.
    transitivity (snd <$> enumerate (sorted_docs doc_scores) 1);
      [|apply enumerate_snd].
    apply list_fmap_ext. by intros ? [rank [doc_id score]].
  - exact Hlen.
  - rewrite <- Hfst at 1. rewrite <- list_fmap_compose.
    unfold rows, rank_rows. rewrite length_map, enumerate_length.
    rewrite <- enumerate_fst.
    apply list_fmap_ext. by intros ? [rank [doc_id score]].
  - unfold rows, rank_rows. apply Forall_forall. intros r Hr.
    apply list_elem_of_In, in_map_iff in Hr as ([rank [doc_id score]] & <- & _).
    reflexivity.
Qed.

(** * Properties of the per-query metrics *)

Lemma relevant_count_cons relevant_docs r l :
  relevant_count relevant_docs (r :: l)
  = ((if bool_decide (doc_id_of r ∈ relevant_docs) then 1 else 0)
     + relevant_count relevant_docs l)%nat.
Proof.
  unfold relevant_count. simpl.
  by destruct (bool_decide (doc_id_of r ∈ relevant_docs)).
Qed.

Lemma relevant_count_le_length relevant_docs l :
  (relevant_count relevant_docs l ≤ List.length l)%nat.
Proof.
  induction l as [|r l IH]; [done|].
  rewrite relevant_count_cons. simpl. case_bool_decide; lia.
Qed.

Lemma relevant_count_take_mono relevant_docs l (i j : nat) :
  (i ≤ j)%nat →
  (relevant_count relevant_docs (take i l)
   ≤ relevant_count relevant_docs (take j l))%nat.
Proof.
  revert i j. induction l as [|r l IH]; intros i j Hij.
  - by rewrite !take_nil.
  - destruct i as [|i]; [simpl; unfold relevant_count at 1; simpl; lia|].
    destruct j as [|j]; [lia|]. simpl.
    rewrite !relevant_count_cons.
    specialize (IH i j). lia.
Qed.

Lemma truediv_ok (a b : Q) : ¬ (b == 0)%Q → truediv a b = Ok (a / b)%Q.
Proof.
  intros Hb. unfold truediv.
  destruct (Qeq_bool b 0) eqn:E; [|reflexivity].
  by apply Qeq_bool_iff in E.
Qed.

Lemma of_nat_neq_0 (n : nat) : n ≠ 0%nat → ¬ (of_nat n == 0)%Q.
Proof. intros Hn H. by apply of_nat_eq_0 in H. Qed.

Lemma truediv_of_nat (a : Q) (n : nat) :
  n ≠ 0%nat → truediv a (of_nat n) = Ok (a / of_nat n)%Q.
Proof. intros Hn. by apply truediv_ok, of_nat_neq_0. Qed.

Lemma size_non_empty_pos (X : gset string) : X ≠ ∅ → size X ≠ 0%nat.
Proof. intros HX Hs. by apply size_empty_iff, leibniz_equiv in Hs. Qed.

(** ** Recall at each rank *)

Lemma running_counts_lookup relevant_docs rel_ret l (k : nat) :
  (k < List.length l)%nat →
  running_counts relevant_docs rel_ret l !! k
  = Some (rel_ret + relevant_count relevant_docs (take (S k) l))%nat.
Proof.
  revert rel_ret k. induction l as [|r l IH]; intros rel_ret k Hk; simpl in *.
  - lia.
  - destruct k as [|k]; simpl.
    + rewrite take_0. unfold relevant_count. simpl.
      case_bool_decide; simpl; f_equal; lia.
    + rewrite IH by lia. rewrite (relevant_count_cons _ r).
      case_bool_decide; f_equal; lia.
Qed.

Lemma running_counts_length relevant_docs rel_ret l :
  List.length (running_counts relevant_docs rel_ret l) = List.length l.
Proof.
  revert rel_ret. induction l as [|r l IH]; intros rel_ret; simpl; [done|].
  by rewrite IH.
Qed.

Lemma at_ranks_loop_spec relevant_docs num_relevant l i rel_ret ps rs :
  num_relevant ≠ 0%nat →
  ∃ ps',
    at_ranks_loop relevant_docs num_relevant l i rel_ret ps rs
    = Ok ((rel_ret + relevant_count relevant_docs l)%nat, ps',
          rs ++ ((λ c, of_nat c / of_nat num_relevant)%Q
                   <$> running_counts relevant_docs rel_ret l)).
Proof.
  intros Hn. revert i rel_ret ps rs.
  induction l as [|[[doc_id rank] score] l IH]; intros i rel_ret ps rs.
  - exists ps. simpl. rewrite app_nil_r.
    unfold relevant_count. simpl. by rewrite Nat.add_0_r.
  - simpl. rewrite relevant_count_cons.
    change (doc_id_of (doc_id, rank, score)) with doc_id.
    set (rel_ret' := if bool_decide (doc_id ∈ relevant_docs)
                     then S rel_ret else rel_ret).
    rewrite (truediv_of_nat _ (i + 1)) by lia.
    rewrite (truediv_of_nat _ num_relevant) by done. simpl.
    destruct (IH (S i) rel_ret'
                (ps ++ [(of_nat rel_ret' / of_nat (i + 1))%Q])
                (rs ++ [(of_nat rel_ret' / of_nat num_relevant)%Q]))
      as [ps' ->].
    exists ps'. rewrite <- app_assoc. simpl.
    replace (rel_ret' + relevant_count relevant_docs l)%nat
      with (rel_ret
            + ((if bool_decide (doc_id ∈ relevant_docs) then 1 else 0)
               + relevant_count relevant_docs l))%nat
      by (subst rel_ret'; case_bool_decide; lia).
    reflexivity.
Qed.

(** C10. For a judged query, the loop returns its two lists; the recall
    list has one entry per retrieved row, entry [k] is the number of
    relevant documents among the first [k+1] rows divided by the number of
    relevant documents, and an entry is never above a later one. *)
Theorem recall_at_ranks_nondecreasing (relevant_docs : gset string)
    (retrieved_docs : list row) :
  relevant_docs ≠ ∅ →
  ∃ rel_ret precision_at_ranks recall_at_ranks,
    at_ranks relevant_docs retrieved_docs
    = Ok (rel_ret, precision_at_ranks, recall_at_ranks)
    ∧ List.length recall_at_ranks = List.length retrieved_docs
    ∧ (∀ k, (k < List.length retrieved_docs)%nat →
         recall_at_ranks !! k
         = Some (of_nat (relevant_count relevant_docs
                           (take (S k) retrieved_docs))
                 / of_nat (size relevant_docs))%Q)
    ∧ (∀ (i j : nat) (x y : Q),
         (i ≤ j)%nat →
         recall_at_ranks !! i = Some x → recall_at_ranks !! j = Some y →
         (x <= y)%Q).
Proof.
  intros Hne. pose proof (size_non_empty_pos _ Hne) as Hn.
  destruct (at_ranks_loop_spec relevant_docs _ retrieved_docs 0 0 [] [] Hn)
    as [ps Hloop].
  unfold at_ranks. rewrite Hloop. simpl.
  eexists _, ps, _. split; [reflexivity|].
  assert (Hk : ∀ k, (k < List.length retrieved_docs)%nat →
    ((λ c, of_nat c / of_nat (size relevant_docs))%Q
       <$> running_counts relevant_docs 0 retrieved_docs) !! k
    = Some (of_nat (relevant_count relevant_docs (take (S k) retrieved_docs))
            / of_nat (size relevant_docs))%Q).
  { intros k Hk. rewrite list_lookup_fmap, running_counts_lookup by done.
    reflexivity. }
  split_and!.
  - by rewrite length_fmap, running_counts_length.
  - exact Hk.
  - intros i j x y Hij Hi Hj.
    assert (Hj' : (j < List.length retrieved_docs)%nat).
    { apply lookup_lt_Some in Hj.
      by rewrite length_fmap, running_counts_length in Hj. }
    rewrite Hk in Hi, Hj by lia.
    injection Hi as <-. injection Hj as <-.
    apply Qmult_le_compat_r.
    + apply of_nat_le, relevant_count_take_mono. lia.
    + apply Qinv_le_0_compat, of_nat_nonneg.
Qed.

Lemma example_relevant_non_empty : example_relevant ≠ ∅.
Proof. apply (non_empty_inhabited_L "D1"). set_solver. Qed.

Lemma recall_at_ranks_nondecreasing_witness :
  ∃ rel_ret precision_at_ranks recall_at_ranks,
    at_ranks example_relevant example_retrieved
    = Ok (rel_ret, precision_at_ranks, recall_at_ranks)
    ∧ List.length recall_at_ranks = List.length example_retrieved
    ∧ (∀ k, (k < List.length example_retrieved)%nat →
         recall_at_ranks !! k
         = Some (of_nat (relevant_count example_relevant
                           (take (S k) example_retrieved))
                 / of_nat (size example_relevant))%Q)
    ∧ (∀ (i j : nat) (x y : Q),
         (i ≤ j)%nat →
         recall_at_ranks !! i = Some x → recall_at_ranks !! j = Some y →
         (x <= y)%Q).
Proof.
  apply (recall_at_ranks_nondecreasing example_relevant example_retrieved).
  exact example_relevant_non_empty.
Defined.

Example example_recall_at_ranks :
  at_ranks example_relevant example_retrieved
  = Ok (2%nat,
        [0 / 1; 1 / 2; 1 / 3; 2 / 4; 2 / 5]%Q,
        [0 / 2; 1 / 2; 1 / 2; 2 / 2; 2 / 2]%Q).
Proof. reflexivity. Qed.

(** ** Reciprocal rank *)

Lemma float_of_int_ok (n : Z) :
  (Z.abs n < float_int_limit)%Z → float_of_int n = Ok (inject_Z n).
Proof.
  intros Hn. unfold float_of_int. by rewrite (proj2 (Z.ltb_lt _ _) Hn).
Qed.

Lemma float_of_int_raises (n : Z) (e : exn) :
  float_of_int n = Raise e →
  e = OverflowError ∧ (float_int_limit <= Z.abs n)%Z.
Proof.
  unfold float_of_int.
  destruct (Z.abs n <? float_int_limit)%Z eqn:Hn; [done|].
  intros [= <-]. split; [done|]. by apply Z.ltb_ge.
Qed.

Lemma inject_Z_neq_0 (n : Z) : n ≠ 0%Z → ¬ (inject_Z n == 0)%Q.
Proof. intros Hn H. apply Hn. unfold Qeq in H. simpl in H. lia. Qed.

(** [1.0 / rank] for a rank that is not 0 and converts to a float. *)
Lemma reciprocal_of_rank (rank : Z) :
  rank ≠ 0%Z → (Z.abs rank < float_int_limit)%Z →
  (divisor ← float_of_int rank; truediv 1 divisor)
  = Ok (1 / inject_Z rank)%Q.
Proof.
  intros H0 Hlim. rewrite float_of_int_ok by done.
  cbn [mbind result_bind]. by apply truediv_ok, inject_Z_neq_0.
Qed.

(** C8. When no retrieved document is relevant the reciprocal rank is 0.
    Otherwise let [r] be the first relevant row, all rows before it being
    non-relevant, with a rank field that is not 0 and within the range of a
    float: the reciprocal rank is 1 over the rank field of [r], whatever the
    position of [r] in the list. *)
Theorem reciprocal_rank_first_relevant (relevant_docs : gset string)
    (retrieved_docs : list row) :
  (Forall (λ r, doc_id_of r ∉ relevant_docs) retrieved_docs →
   reciprocal_rank relevant_docs retrieved_docs = Ok 0%Q)
  ∧ (∀ before r after,
       retrieved_docs = before ++ r :: after →
       Forall (λ r', doc_id_of r' ∉ relevant_docs) before →
       doc_id_of r ∈ relevant_docs →
       rank_of r ≠ 0%Z →
       (Z.abs (rank_of r) < float_int_limit)%Z →
       reciprocal_rank relevant_docs retrieved_docs
       = Ok (1 / inject_Z (rank_of r))%Q).
Proof.
  split.
  - induction 1 as [|[[doc_id rank] score] l Hr Hl IH];
      cbn [reciprocal_rank]; [done|].
    change (doc_id ∉ relevant_docs) in Hr.
    by rewrite bool_decide_eq_false_2.
  - intros before r after -> Hbefore Hr Hrank Hlim.
    induction Hbefore as [|[[doc_id rank] score] l Hx Hl IH];
      cbn [app reciprocal_rank].
    + destruct r as [[doc_id rank] score].
      change (doc_id ∈ relevant_docs) in Hr.
      rewrite bool_decide_eq_true_2 by done.
      by apply reciprocal_of_rank.
    + change (doc_id ∉ relevant_docs) in Hx.
      by rewrite bool_decide_eq_false_2.
Qed.

Lemma reciprocal_rank_first_relevant_witness :
  reciprocal_rank {[ "D1" ]}
    [("D2", 7%Z, 5%Q); ("D1", 9%Z, 4%Q); ("D1", 10%Z, 3%Q)]
  = Ok (1 / inject_Z 9)%Q.
Proof.
  apply (proj2 (reciprocal_rank_first_relevant {[ "D1" ]}
                  [("D2", 7%Z, 5%Q); ("D1", 9%Z, 4%Q); ("D1", 10%Z, 3%Q)])
           [("D2", 7%Z, 5%Q)] ("D1", 9%Z, 4%Q) [("D1", 10%Z, 3%Q)]).
  - reflexivity.
  - repeat constructor. unfold doc_id_of. simpl. set_solver.
  - unfold doc_id_of. simpl. set_solver.
  - unfold rank_of. simpl. lia.
  - apply Z.ltb_lt. vm_compute. reflexivity.
Defined.

(** A rank field of 0 in the first relevant row makes the division raise. *)
Example reciprocal_rank_zero_rank :
  reciprocal_rank {[ "D1" ]} [("D1", 0%Z, 5%Q)] = Raise ZeroDivisionError.
Proof. reflexivity. Qed.

(** A rank field too large for a float makes the conversion raise. *)
Example reciprocal_rank_huge_rank :
  reciprocal_rank {[ "D1" ]} [("D1", (10 ^ 400)%Z, 5%Q)]
  = Raise OverflowError.
Proof. vm_compute. reflexivity. Qed.

(** ** R-precision *)

Lemma r_retrieved_loop_spec relevant_docs l (start len r_retrieved : nat) :
  (start + len ≤ List.length l)%nat →
  r_retrieved_loop relevant_docs l (seq start len) r_retrieved
  = Ok (r_retrieved
        + relevant_count relevant_docs (take len (drop start l)))%nat.
Proof.
  revert start r_retrieved.
  induction len as [|len IH]; intros start r_retrieved Hlen; simpl.
  - rewrite take_0. unfold relevant_count. simpl. f_equal. lia.
  - destruct (lookup_lt_is_Some_2 l start) as [entry Hentry]; [lia|].
    unfold py_index. rewrite Hentry. simpl.
    rewrite IH by lia.
    rewrite (drop_S _ _ _ Hentry). simpl. rewrite relevant_count_cons.
    f_equal. case_bool_decide; lia.
Qed.

(** C1, as amended.  With R the number of relevant documents: a retrieved
    list shorter than R gets R-precision 0; a list of at least R rows gets
    the number of relevant documents among its first R rows, divided by R. *)
Theorem r_precision_guarded (relevant_docs : gset string)
    (retrieved_docs : list row) :
  relevant_docs ≠ ∅ →
  ((List.length retrieved_docs < size relevant_docs)%nat →
   r_precision relevant_docs retrieved_docs = Ok 0%Q)
  ∧ ((size relevant_docs ≤ List.length retrieved_docs)%nat →
     r_precision relevant_docs retrieved_docs
     = Ok (of_nat (relevant_count relevant_docs
                     (take (size relevant_docs) retrieved_docs))
           / of_nat (size relevant_docs))%Q).
Proof.
  intros Hne. pose proof (size_non_empty_pos _ Hne) as Hn.
  unfold r_precision. split; intros Hlen.
  - by rewrite (proj2 (Nat.leb_gt _ _)).
  - rewrite (proj2 (Nat.leb_le _ _)) by done.
    rewrite Nat.min_l by done.
    rewrite r_retrieved_loop_spec by lia. simpl.
    rewrite drop_0. by apply truediv_of_nat.
Qed.

Lemma r_precision_guarded_witness :
  r_precision example_relevant example_retrieved
  = Ok (of_nat (relevant_count example_relevant
                  (take (size example_relevant) example_retrieved))
        / of_nat (size example_relevant))%Q
  ∧ r_precision {[ "D1"; "D2"; "D3" ]} [("D1", 1%Z, 2%Q); ("D2", 2%Z, 1%Q)]
    = Ok 0%Q.
Proof.
  split.
  - apply (r_precision_guarded example_relevant example_retrieved).
    + exact example_relevant_non_empty.
    + vm_compute. lia.
  - apply (r_precision_guarded {[ "D1"; "D2"; "D3" ]}
             [("D1", 1%Z, 2%Q); ("D2", 2%Z, 1%Q)]).
    + apply (non_empty_inhabited_L "D1"). set_solver.
    + vm_compute. lia.
Defined.

(** C1 as stated fails: with three relevant documents and a run of two
    rows, both relevant, the R-precision is 0 and not 2/3. *)
Lemma r_precision_short_list_zero :
  let relevant_docs : gset string := {[ "D1"; "D2"; "D3" ]} in
  let retrieved_docs : list row := [("D1", 1%Z, 2%Q); ("D2", 2%Z, 1%Q)] in
  (List.length retrieved_docs < size relevant_docs)%nat
  ∧ r_precision relevant_docs retrieved_docs = Ok 0%Q
  ∧ (of_nat (relevant_count relevant_docs
               (take (Nat.min (size relevant_docs)
                        (List.length retrieved_docs)) retrieved_docs))
     / of_nat (size relevant_docs) == 2 # 3)%Q
  ∧ ¬ (0 == 2 # 3)%Q.
Proof.
  intros relevant_docs retrieved_docs. split_and!.
  - vm_compute. lia.
  - reflexivity.
  - reflexivity.
  - discriminate.
Qed.

(** ** Average precision *)

Lemma of_nat_0 : (of_nat 0 == 0)%Q.
Proof. reflexivity. Qed.

Lemma of_nat_S (n : nat) : (of_nat (S n) == 1 + of_nat n)%Q.
Proof.
  unfold of_nat. rewrite Nat2Z.inj_succ, <- Z.add_1_l, inject_Z_plus.
  reflexivity.
Qed.

Lemma ap_loop_bounds relevant_docs l (i rel_found : nat) (ap_sum : Q) :
  (rel_found ≤ i)%nat →
  ∃ v, ap_loop relevant_docs l i rel_found ap_sum = Ok v
       ∧ (ap_sum <= v)%Q
       ∧ (v <= ap_sum + of_nat (relevant_count relevant_docs l))%Q.
Proof.
  revert i rel_found ap_sum.
  induction l as [|[[doc_id rank] score] l IH]; intros i rel_found ap_sum Hi.
  - exists ap_sum. simpl. unfold relevant_count. simpl.
    rewrite of_nat_0. split_and!; [done|lra|lra].
  - simpl. rewrite relevant_count_cons.
    change (doc_id_of (doc_id, rank, score)) with doc_id.
    case_bool_decide.
    + rewrite (truediv_of_nat _ (i + 1)) by lia. simpl.
      destruct (IH (S i) (S rel_found)
                  (ap_sum + of_nat (S rel_found) / of_nat (i + 1))%Q)
        as (v & -> & Hlo & Hhi); [lia|].
      exists v. split; [done|].
      assert (Hpos : (0 < of_nat (i + 1))%Q) by (apply of_nat_pos; lia).
      assert (Hterm0 : (0 <= of_nat (S rel_found) / of_nat (i + 1))%Q).
      { apply Qle_shift_div_l; [done|].
        pose proof (of_nat_nonneg (S rel_found)). lra. }
      assert (Hterm1 : (of_nat (S rel_found) / of_nat (i + 1) <= 1)%Q).
      { apply Qle_shift_div_r; [done|].
        assert (of_nat (S rel_found) <= of_nat (i + 1))%Q
          by (apply of_nat_le; lia).
        lra. }
      change (1 + relevant_count relevant_docs l)%nat
        with (S (relevant_count relevant_docs l)).
      rewrite of_nat_S. split; lra.
    + destruct (IH (S i) rel_found ap_sum) as (v & -> & Hlo & Hhi); [lia|].
      exists v. simpl. done.
Qed.

Lemma ap_loop_all_relevant relevant_docs l (i : nat) (ap_sum : Q) :
  Forall (λ r, doc_id_of r ∈ relevant_docs) l →
  ∃ v, ap_loop relevant_docs l i i ap_sum = Ok v
       ∧ (v == ap_sum + of_nat (List.length l))%Q.
Proof.
  intros Hall. revert i ap_sum.
  induction Hall as [|[[doc_id rank] score] l Hr Hl IH]; intros i ap_sum.
  - exists ap_sum. simpl. split; [done|]. rewrite of_nat_0. lra.
  - simpl. change (doc_id ∈ relevant_docs) in Hr.
    rewrite bool_decide_eq_true_2 by done.
    rewrite (truediv_of_nat _ (i + 1)) by lia. simpl.
    destruct (IH (S i) (ap_sum + of_nat (S i) / of_nat (i + 1))%Q)
      as (v & -> & Hv).
    exists v. split; [done|]. rewrite Hv.
    replace (i + 1)%nat with (S i) by lia.
    assert (Hone : (of_nat (S i) / of_nat (S i) == 1)%Q).
    { apply Qmult_inv_r, of_nat_neq_0. lia. }
    rewrite Hone, (of_nat_S (List.length l)). ring.
Qed.

(** The loop of [evaluate_map.py] computes the same sum, and the count. *)
Lemma precision_loop_ap_loop relevant_docs l i relevant_retrieved sum :
  EvaluateMap.precision_loop relevant_docs l i relevant_retrieved sum
  = (v ← ap_loop relevant_docs l i relevant_retrieved sum;
     Ok ((relevant_retrieved + relevant_count relevant_docs l)%nat, v)).
Proof.
  revert i relevant_retrieved sum.
  induction l as [|[[doc_id rank] score] l IH]; intros i n sum; simpl.
  - unfold relevant_count. simpl. by rewrite Nat.add_0_r.
  - rewrite relevant_count_cons.
    change (doc_id_of (doc_id, rank, score)) with doc_id.
    case_bool_decide.
    + destruct (truediv (of_nat (S n)) (of_nat (i + 1))); simpl; [|done].
      rewrite IH. destruct (ap_loop _ _ _ _ _); simpl; [|done].
      do 2 f_equal. lia.
    + rewrite IH. destruct (ap_loop _ _ _ _ _); simpl; done.
Qed.

Lemma relevant_count_filter_ids (relevant_docs : gset string) (l : list row) :
  relevant_count relevant_docs l
  = List.length (filter (λ d, d ∈ relevant_docs) (doc_id_of <$> l)).
Proof.
  induction l as [|r l IH]; [done|].
  rewrite relevant_count_cons, fmap_cons, filter_cons.
  case_bool_decide; case_decide; simpl; try done; lia.
Qed.

(** Without repeated document ids, the relevant rows are at most as many
    as the relevant documents. *)
Lemma relevant_count_le_size (relevant_docs : gset string) (l : list row) :
  NoDup (doc_id_of <$> l) →
  (relevant_count relevant_docs l ≤ size relevant_docs)%nat.
Proof.
  intros Hnd. rewrite relevant_count_filter_ids.
  set (ids := filter (λ d, d ∈ relevant_docs) (doc_id_of <$> l)).
  assert (Hids : NoDup ids) by by apply NoDup_filter.
  rewrite <- (size_list_to_set (C := gset string) ids Hids).
  apply subseteq_size. intros d Hd.
  apply elem_of_list_to_set, list_elem_of_filter in Hd. tauto.
Qed.

Lemma retrieved_all_relevant_length (relevant_docs : gset string)
    (l : list row) :
  NoDup (doc_id_of <$> l) →
  (∀ r, r ∈ l → doc_id_of r ∈ relevant_docs) →
  (∀ d, d ∈ relevant_docs → d ∈ doc_id_of <$> l) →
  List.length l = size relevant_docs.
Proof.
  intros Hnd Hrel Hret.
  rewrite <- (length_fmap doc_id_of l).
  rewrite <- (size_list_to_set (C := gset string) _ Hnd).
  f_equal. apply set_eq. intros d. rewrite elem_of_list_to_set. split.
  - intros (r & -> & Hr)%list_elem_of_fmap. by apply Hrel.
  - apply Hret.
Qed.

(** C3, as amended.  For a retrieved list in which no document id occurs
    twice, both programs compute the same average precision, and it lies
    between 0 and 1.  It is 1 when, moreover, the relevant set is not empty,
    every retrieved document is relevant and every relevant document is
    retrieved. *)
Theorem average_precision_unit_interval (relevant_docs : gset string)
    (retrieved_docs : list row) :
  NoDup (doc_id_of <$> retrieved_docs) →
  ∃ ap ap' : Q,
    average_precision relevant_docs retrieved_docs = Ok ap
    ∧ EvaluateMap.calculate_average_precision relevant_docs retrieved_docs
      = Ok ap'
    ∧ (ap' == ap)%Q
    ∧ (0 <= ap)%Q ∧ (ap <= 1)%Q
    ∧ (relevant_docs ≠ ∅ →
       (∀ r, r ∈ retrieved_docs → doc_id_of r ∈ relevant_docs) →
       (∀ d, d ∈ relevant_docs → d ∈ doc_id_of <$> retrieved_docs) →
       (ap == 1)%Q).
Proof.
  intros Hnd.
  destruct (ap_loop_bounds relevant_docs retrieved_docs 0 0 0%Q)
    as (v & Hloop & Hlo & Hhi); [lia|].
  pose proof (relevant_count_le_size relevant_docs _ Hnd) as Hcount.
  apply of_nat_le in Hcount.
  unfold average_precision, EvaluateMap.calculate_average_precision.
  rewrite precision_loop_ap_loop, Hloop. simpl.
  destruct (decide (relevant_docs = ∅)) as [->|Hne].
  - rewrite bool_decide_eq_true_2 by done.
    rewrite size_empty. simpl.
    exists 0%Q, 0%Q. split_and!; try done; lra.
  - rewrite bool_decide_eq_false_2 by done.
    pose proof (size_non_empty_pos _ Hne) as Hn.
    rewrite (proj2 (Nat.ltb_lt 0 _)) by lia.
    rewrite truediv_of_nat by done.
    assert (Hpos : (0 < of_nat (size relevant_docs))%Q)
      by (apply of_nat_pos; lia).
    assert (H0 : (0 <= v / of_nat (size relevant_docs))%Q).
    { apply Qle_shift_div_l; [done|]. lra. }
    assert (H1 : (v / of_nat (size relevant_docs) <= 1)%Q).
    { apply Qle_shift_div_r; [done|]. lra. }
    exists (v / of_nat (size relevant_docs))%Q.
    destruct (relevant_count relevant_docs retrieved_docs =? 0)%nat eqn:Hc.
    + apply Nat.eqb_eq in Hc. rewrite Hc, of_nat_0 in Hhi.
      assert (Hv : (v == 0)%Q) by lra.
      exists 0%Q. split_and!; try done.
      * rewrite Hv. unfold Qdiv. ring.
      * intros _ Hrel Hret. exfalso.
        pose proof (retrieved_all_relevant_length _ _ Hnd Hrel Hret) as Hl.
        destruct retrieved_docs as [|r l]; [simpl in Hl; lia|].
        rewrite relevant_count_cons in Hc.
        rewrite bool_decide_eq_true_2 in Hc by (apply Hrel; left). lia.
    + eexists. split_and!; try done.
      intros _ Hrel Hret.
      pose proof (retrieved_all_relevant_length _ _ Hnd Hrel Hret) as Hl.
      destruct (ap_loop_all_relevant relevant_docs retrieved_docs 0 0%Q)
        as (v' & Hloop' & Hv').
      { apply Forall_forall. exact Hrel. }
      rewrite Hloop in Hloop'. injection Hloop' as <-.
      rewrite Hv', Hl. field. by apply of_nat_neq_0.
Qed.

Lemma average_precision_unit_interval_witness :
  ∃ ap ap' : Q,
    average_precision example_relevant example_retrieved = Ok ap
    ∧ EvaluateMap.calculate_average_precision example_relevant
        example_retrieved = Ok ap'
    ∧ (ap' == ap)%Q
    ∧ (0 <= ap)%Q ∧ (ap <= 1)%Q
    ∧ (example_relevant ≠ ∅ →
       (∀ r, r ∈ example_retrieved → doc_id_of r ∈ example_relevant) →
       (∀ d, d ∈ example_relevant → d ∈ doc_id_of <$> example_retrieved) →
       (ap == 1)%Q).
Proof.
  apply (average_precision_unit_interval example_relevant example_retrieved).
  refine (bool_decide_unpack _ _). vm_compute. exact I.
Defined.

Example example_average_precision :
  ∃ ap, average_precision example_relevant example_retrieved = Ok ap
        ∧ (ap == 1 # 2)%Q.
Proof. eexists. split; reflexivity. Qed.

(** C3 as stated fails on a run that lists a relevant document twice: the
    average precision is 2.  And [calculate_average_precision] gives 0, not
    1, to an empty run for an empty relevant set. *)
Lemma average_precision_repeated_document :
  let relevant_docs : gset string := {[ "D1" ]} in
  let retrieved_docs : list row := [("D1", 1%Z, 2%Q); ("D1", 2%Z, 1%Q)] in
  (∀ r, r ∈ retrieved_docs → doc_id_of r ∈ relevant_docs)
  ∧ (∀ d, d ∈ relevant_docs → d ∈ doc_id_of <$> retrieved_docs)
  ∧ (∃ ap, average_precision relevant_docs retrieved_docs = Ok ap
           ∧ EvaluateMap.calculate_average_precision relevant_docs
               retrieved_docs = Ok ap
           ∧ (ap == 2)%Q ∧ ¬ (ap <= 1)%Q)
  ∧ EvaluateMap.calculate_average_precision ∅ [] = Ok 0%Q.
Proof.
  intros relevant_docs retrieved_docs. split_and!.
  - intros r Hr. subst relevant_docs retrieved_docs.
    apply elem_of_singleton.
    repeat (apply elem_of_cons in Hr as [->|Hr]; [reflexivity|]).
    by apply elem_of_nil in Hr.
  - intros d ->%elem_of_singleton. left.
  - eexists. split_and!; [reflexivity|reflexivity|reflexivity|].
    intros H. vm_compute in H. by apply H.
  - reflexivity.
Qed.

(** * Properties of [calculate_metrics] *)

Lemma sorted_keys_elem {V} (d : gmap string V) (k : string) :
  k ∈ sorted_keys d ↔ is_Some (d !! k).
Proof.
  unfold sorted_keys. rewrite (py_sorted_perm String.leb).
  rewrite list_elem_of_fmap. split.
  - intros ([k' v] & -> & Hkv). apply elem_of_map_to_list in Hkv. by exists v.
  - intros [v Hv]. exists (k, v). split; [done|].
    by apply elem_of_map_to_list.
Qed.

(** What the record of a query holds: the blocks above, each on the
    relevant set and the rows of that query. *)
Lemma evaluate_query_fields relevant_docs retrieved_docs m :
  evaluate_query relevant_docs retrieved_docs = Ok m →
  average_precision relevant_docs retrieved_docs = Ok (q_ap m)
  ∧ r_precision relevant_docs retrieved_docs = Ok (q_Rprec m)
  ∧ reciprocal_rank relevant_docs retrieved_docs = Ok (q_recip_rank m)
  ∧ ∃ precision_at_ranks recall_at_ranks,
      at_ranks relevant_docs retrieved_docs
      = Ok (q_num_rel_ret m, precision_at_ranks, recall_at_ranks)
      ∧ final_recall_of recall_at_ranks = Ok (q_recall m)
      ∧ precision_at precision_at_ranks 5 = Ok (q_P_5 m)
      ∧ precision_at precision_at_ranks 10 = Ok (q_P_10 m)
      ∧ precision_at precision_at_ranks 30 = Ok (q_P_30 m).
Proof.
  unfold evaluate_query.
  destruct (at_ranks _ _) as [[[rel_ret ps] rs]|]; simpl; [|done].
  destruct (average_precision _ _); simpl; [|done].
  destruct (precision_at ps 5) eqn:H5; simpl; [|done].
  destruct (precision_at ps 10) eqn:H10; simpl; [|done].
  destruct (precision_at ps 30) eqn:H30; simpl; [|done].
  destruct (final_recall_of rs) eqn:Hrecall; simpl; [|done].
  destruct (r_precision _ _); simpl; [|done].
  destruct (reciprocal_rank _ _); simpl; [|done].
  intros Heq.
  apply (f_equal (λ r, match r with Ok x => x | Raise _ => m end)) in Heq.
  subst m. simpl. split_and!; try done.
  by exists ps, rs.
Qed.

Lemma query_step_keeps qrels results t query_id t' q rel docs m :
  query_step qrels results t query_id = Ok t' →
  qrels !! q = Some rel → results !! q = Some docs →
  evaluate_query rel docs = Ok m →
  query_metrics t !! q = Some m → query_metrics t' !! q = Some m.
Proof.
  unfold query_step. intros Hstep Hrel Hdocs Hm Ht.
  destruct (results !! query_id) as [docs'|] eqn:Hd; [|by injection Hstep as <-].
  destruct (qrels !! query_id) as [rel'|] eqn:Hr; simpl in Hstep; [|done].
  case_bool_decide; [by injection Hstep as <-|].
  destruct (evaluate_query rel' docs') as [m'|] eqn:Hm'; simpl in Hstep; [|done].
  injection Hstep as <-. simpl.
  destruct (decide (query_id = q)) as [->|Hq].
  - rewrite lookup_insert_eq. congruence.
  - by rewrite lookup_insert_ne.
Qed.

Lemma query_loop_keeps qrels results ids t t' q rel docs m :
  query_loop qrels results ids t = Ok t' →
  qrels !! q = Some rel → results !! q = Some docs →
  evaluate_query rel docs = Ok m →
  query_metrics t !! q = Some m → query_metrics t' !! q = Some m.
Proof.
  intros Hloop Hrel Hdocs Hm. revert t Hloop.
  induction ids as [|query_id ids IH]; intros t Hloop Ht; simpl in Hloop.
  - by injection Hloop as <-.
  - destruct (query_step qrels results t query_id) as [t1|] eqn:Hstep;
      simpl in Hloop; [|done].
    apply (IH t1 Hloop). by eapply query_step_keeps.
Qed.

Lemma query_loop_metrics qrels results ids t t' q rel docs :
  query_loop qrels results ids t = Ok t' →
  q ∈ ids → qrels !! q = Some rel → results !! q = Some docs → rel ≠ ∅ →
  ∃ m, evaluate_query rel docs = Ok m ∧ query_metrics t' !! q = Some m.
Proof.
  intros Hloop Hq Hrel Hdocs Hne. revert t Hloop.
  induction ids as [|query_id ids IH]; intros t Hloop; simpl in Hloop.
  - by apply elem_of_nil in Hq.
  - destruct (query_step qrels results t query_id) as [t1|] eqn:Hstep;
      simpl in Hloop; [|done].
    destruct (decide (query_id = q)) as [->|Hneq].
    + unfold query_step in Hstep. rewrite Hdocs, Hrel in Hstep.
      simpl in Hstep. rewrite bool_decide_eq_false_2 in Hstep by done.
      destruct (evaluate_query rel docs) as [m|] eqn:Hm; simpl in Hstep;
        [|done].
      injection Hstep as <-. exists m. split; [done|].
      eapply query_loop_keeps; [exact Hloop|done..|].
      simpl. by rewrite lookup_insert_eq.
    + apply elem_of_cons in Hq as [Hq|Hq]; [congruence|].
      exact (IH Hq t1 Hloop).
Qed.

(** A run of [calculate_metrics] that returns has, for each query judged
    with a non-empty relevant set and present in the results, the record
    [evaluate_query] computes from its relevant set and rows. *)
Lemma calculate_metrics_query qrels results all_metrics metrics q rel docs :
  calculate_metrics qrels results = Ok (all_metrics, metrics) →
  qrels !! q = Some rel → results !! q = Some docs → rel ≠ ∅ →
  ∃ m, evaluate_query rel docs = Ok m ∧ metrics !! q = Some m.
Proof.
  unfold calculate_metrics. intros Hcalc Hrel Hdocs Hne.
  destruct (query_loop qrels results (sorted_keys qrels) totals0) as [t|]
    eqn:Hloop; simpl in Hcalc; [|done].
  injection Hcalc as _ <-.
  eapply query_loop_metrics; [exact Hloop| |done..].
  apply sorted_keys_elem. by exists rel.
Qed.

(** ** Termination without error

    The only operation of [calculate_metrics] that can raise on well-typed
    inputs is the division [1.0 / rank]: on a rank field of 0, or on one
    too large for a float. *)

Lemma precision_at_returns ps k : ∃ v, precision_at ps k = Ok v.
Proof.
  unfold precision_at, py_index.
  destruct (k - 1 <? List.length ps)%nat eqn:Hk; [|by eexists].
  apply Nat.ltb_lt in Hk.
  destruct (lookup_lt_is_Some_2 ps (k - 1) Hk) as [v ->]. by eexists.
Qed.

Lemma final_recall_of_returns rs : ∃ v, final_recall_of rs = Ok v.
Proof.
  destruct rs as [|x rs]; [by eexists|].
  unfold final_recall_of, py_index.
  destruct (lookup_lt_is_Some_2 (x :: rs) (List.length (x :: rs) - 1))
    as [v ->]; [simpl; lia|]. by eexists.
Qed.

Lemma reciprocal_rank_returns relevant_docs l :
  Forall rank_in_range l →
  ∃ v, reciprocal_rank relevant_docs l = Ok v.
Proof.
  induction 1 as [|[[doc_id rank] score] l [Hr Hlim] Hl IH];
    cbn [reciprocal_rank]; [by eexists|].
  case_bool_decide; [|exact IH].
  eexists. by apply reciprocal_of_rank.
Qed.

Lemma r_precision_returns relevant_docs retrieved_docs :
  relevant_docs ≠ ∅ → ∃ v, r_precision relevant_docs retrieved_docs = Ok v.
Proof.
  intros Hne. unfold r_precision.
  destruct (size relevant_docs <=? List.length retrieved_docs)%nat eqn:Hle;
    [|by eexists].
  apply Nat.leb_le in Hle.
  rewrite r_retrieved_loop_spec by lia. simpl.
  eexists. by apply truediv_of_nat, size_non_empty_pos.
Qed.

Lemma evaluate_query_returns relevant_docs retrieved_docs :
  relevant_docs ≠ ∅ →
  Forall rank_in_range retrieved_docs →
  ∃ m, evaluate_query relevant_docs retrieved_docs = Ok m.
Proof.
  intros Hne Hranks. unfold evaluate_query, at_ranks.
  destruct (at_ranks_loop_spec relevant_docs _ retrieved_docs 0 0 [] []
              (size_non_empty_pos _ Hne)) as [ps ->].
  simpl. set (rs := _ <$> _).
  destruct (ap_loop_bounds relevant_docs retrieved_docs 0 0 0%Q)
    as (v & Hloop & _); [lia|].
  unfold average_precision. rewrite Hloop. simpl.
  rewrite (proj2 (Nat.ltb_lt 0 _))
    by (pose proof (size_non_empty_pos _ Hne); lia).
  rewrite truediv_of_nat by by apply size_non_empty_pos. simpl.
  destruct (precision_at_returns ps 5) as [? ->]. simpl.
  destruct (precision_at_returns ps 10) as [? ->]. simpl.
  destruct (precision_at_returns ps 30) as [? ->]. simpl.
  destruct (final_recall_of_returns rs) as [? ->]. simpl.
  destruct (r_precision_returns _ retrieved_docs Hne) as [? ->]. simpl.
  destruct (reciprocal_rank_returns relevant_docs _ Hranks) as [? ->].
  by eexists.
Qed.

Lemma query_loop_returns qrels results ids t :
  (∀ q, q ∈ ids → is_Some (qrels !! q)) →
  (∀ q docs, results !! q = Some docs →
     Forall rank_in_range docs) →
  ∃ t', query_loop qrels results ids t = Ok t'.
Proof.
  intros Hids Hranks. revert t Hids.
  induction ids as [|q ids IH]; intros t Hids; simpl; [by eexists|].
  assert (Hstep : ∃ t1, query_step qrels results t q = Ok t1).
  { unfold query_step. destruct (results !! q) as [docs|] eqn:Hdocs;
      [|by eexists].
    destruct (Hids q) as [rel ->]; [left|]. simpl.
    case_bool_decide; [by eexists|].
    destruct (evaluate_query_returns rel docs) as [m ->]; [done|by eauto|].
    by eexists. }
  destruct Hstep as [t1 ->]. simpl. apply IH.
  intros q' Hq'. apply Hids. by right.
Qed.

Lemma calculate_metrics_returns qrels results :
  (∀ q docs, results !! q = Some docs →
     Forall rank_in_range docs) →
  ∃ out, calculate_metrics qrels results = Ok out.
Proof.
  intros Hranks. unfold calculate_metrics.
  destruct (query_loop_returns qrels results (sorted_keys qrels) totals0)
    as [t ->]; [|done|by eexists].
  intros q. apply sorted_keys_elem.
Qed.

(** ** No query evaluated *)

Lemma query_loop_none_qualifies qrels results ids t :
  (∀ q rel, qrels !! q = Some rel → results !! q = None ∨ rel = ∅) →
  (∀ q, q ∈ ids → is_Some (qrels !! q)) →
  query_loop qrels results ids t = Ok t.
Proof.
  intros Hnone. induction ids as [|q ids IH]; intros Hids; simpl; [done|].
  assert (Hstep : query_step qrels results t q = Ok t).
  { unfold query_step. destruct (Hids q) as [rel Hrel]; [left|].
    destruct (results !! q) as [docs|] eqn:Hdocs; [|done].
    rewrite Hrel. simpl.
    destruct (Hnone q rel Hrel) as [?| ->]; [congruence|].
    by rewrite bool_decide_eq_true_2. }
  rewrite Hstep. simpl. apply IH. intros q' Hq'. apply Hids. by right.
Qed.

(** C2, on the code.  When no query is in both inputs with a non-empty
    relevant set, [calculate_metrics] divides by nothing and returns an
    empty [all_metrics]; [print_results] then raises [KeyError] on its first
    read of it, and [main] ends with the error message and status 1, no
    aggregate line written. *)
Theorem no_query_evaluated_key_error (qrels : gmap string (gset string))
    (results : gmap string (list row)) :
  (∀ q rel, qrels !! q = Some rel → results !! q = None ∨ rel = ∅) →
  calculate_metrics qrels results = Ok (∅, ∅)
  ∧ print_results ∅ ∅ = ([], Raise (KeyError "map"))
  ∧ main qrels results = ([ErrorLine (KeyError "map")], 1%Z).
Proof.
  intros Hnone.
  assert (Hcalc : calculate_metrics qrels results = Ok (∅, ∅)).
  { unfold calculate_metrics.
    rewrite (query_loop_none_qualifies _ _ _ _ Hnone); [reflexivity|].
    intros q. apply sorted_keys_elem. }
  split_and!; [exact Hcalc|reflexivity|].
  unfold main. rewrite Hcalc. reflexivity.
Qed.

Lemma no_query_evaluated_key_error_witness :
  let qrels : gmap string (gset string) := {[ "Q1" := {[ "D1" ]} ]} in
  let results : gmap string (list row) := {[ "Q2" := [("D1", 1%Z, 1%Q)] ]} in
  calculate_metrics qrels results = Ok (∅, ∅)
  ∧ print_results ∅ ∅ = ([], Raise (KeyError "map"))
  ∧ main qrels results = ([ErrorLine (KeyError "map")], 1%Z).
Proof.
  intros qrels results.
  apply (no_query_evaluated_key_error qrels results).
  intros q rel Hq. left. subst qrels results.
  apply lookup_singleton_Some in Hq as [<- _].
  reflexivity.
Defined.

(** The same on empty inputs, by evaluation. *)
Example main_empty_inputs : main ∅ ∅ = ([ErrorLine (KeyError "map")], 1%Z).
Proof. reflexivity. Qed.

(** * Further properties of [preprocess] *)

Lemma all_chars_app P s1 s2 :
  all_chars P (s1 +:+ s2) = all_chars P s1 && all_chars P s2.
Proof.
  induction s1 as [|c s1 IH]; simpl; [done|].
  by rewrite IH, andb_assoc.
Qed.

Lemma keeps_not_space_alnum c :
  keeps c = true → is_space c = false → is_alnum c = true.
Proof.
  unfold keeps, is_alnum. intros Hk Hs. rewrite Hs, orb_false_r in Hk. done.
Qed.

Lemma re_sub_non_alnum_keeps s : all_chars keeps (re_sub_non_alnum s) = true.
Proof.
  induction s as [|c s IH]; simpl; [done|].
  rewrite IH, andb_true_r. destruct (keeps c) eqn:Hc; [done|reflexivity].
Qed.

Lemma split_from_alnum cur s :
  all_chars is_alnum cur = true → all_chars keeps s = true →
  Forall (λ t, all_chars is_alnum t = true) (split_from cur s).
Proof.
  revert cur. induction s as [|c s IH]; intros cur Hcur Hs; simpl in *.
  - destruct (String.eqb cur ""); by repeat constructor.
  - apply andb_true_iff in Hs as [Hc Hs].
    destruct (is_space c) eqn:Hsp.
    + destruct (String.eqb cur ""); [by apply IH|].
      constructor; [done|by apply IH].
    + apply IH; [|done].
      rewrite all_chars_app, Hcur. simpl.
      by rewrite (keeps_not_space_alnum c Hc Hsp).
Qed.

(** X1. Without a stemmer, every token [preprocess] returns is made of the
    characters a-z and 0-9 only, whatever the text and the stopwords. *)
Theorem preprocess_tokens_alphanumeric (stopwords : gset string)
    (text : string) (stemming : bool) :
  Forall (λ t, all_chars is_alnum t = true)
    (preprocess (Env stopwords None) text stemming).
Proof.
  unfold preprocess. simpl.
  destruct (String.eqb text ""); [constructor|].
  apply Forall_forall. intros t Ht.
  apply list_elem_of_In, filter_In in Ht as [Ht _].
  apply list_elem_of_In in Ht. revert t Ht. apply Forall_forall.
  apply split_from_alnum; [done|apply re_sub_non_alnum_keeps].
Qed.

Lemma lower_app s1 s2 : lower (s1 +:+ s2) = lower s1 +:+ lower s2.
Proof. induction s1 as [|c s1 IH]; simpl; [done|]. by rewrite IH. Qed.

Lemma re_sub_non_alnum_app s1 s2 :
  re_sub_non_alnum (s1 +:+ s2) = re_sub_non_alnum s1 +:+ re_sub_non_alnum s2.
Proof. induction s1 as [|c s1 IH]; simpl; [done|]. by rewrite IH. Qed.

Lemma split_from_space cur s1 s2 :
  split_from cur (s1 +:+ String " " s2) = split_from cur s1 ++ split s2.
Proof.
  revert cur. induction s1 as [|c s1 IH]; intros cur; simpl.
  - unfold split. by destruct (String.eqb cur "").
  - destruct (is_space c); [|apply IH].
    destruct (String.eqb cur ""); [apply IH|].
    rewrite IH. reflexivity.
Qed.

(** [preprocess] without its test for the empty text: that test changes
    nothing, the empty text has no tokens either way. *)
Lemma preprocess_unguarded E text stemming :
  preprocess E text stemming
  = let tokens :=
      List.filter (keep_token E) (split (re_sub_non_alnum (lower text))) in
    match nltk E with
    | Some stem => stem <$> tokens
    | None => tokens
    end.
Proof.
  unfold preprocess. destruct (String.eqb text "") eqn:Ht; [|done].
  apply String.eqb_eq in Ht as ->. simpl. by destruct (nltk E).
Qed.

Lemma split_joined_texts t1 t2 :
  split (re_sub_non_alnum (lower (t1 +:+ " " +:+ t2)))
  = split (re_sub_non_alnum (lower t1)) ++ split (re_sub_non_alnum (lower t2)).
Proof.
  rewrite lower_app, re_sub_non_alnum_app. simpl.
  unfold split at 1. apply split_from_space.
Qed.

(** X2. A space between two texts separates their tokens: the tokens of
    [t1 + " " + t2] are those of [t1] followed by those of [t2].  This is
    how [build_index] joins title and body in full-text mode. *)
Theorem preprocess_joined_texts (E : env) (t1 t2 : string) (stemming : bool) :
  preprocess E (t1 +:+ " " +:+ t2) stemming
  = preprocess E t1 stemming ++ preprocess E t2 stemming.
Proof.
  rewrite !preprocess_unguarded. simpl.
  rewrite split_joined_texts, List.filter_app.
  destruct (nltk E); [by rewrite fmap_app|done].
Qed.

(** * Properties of [build_index] *)

Lemma counter_get_add c t t' :
  counter_get (counter_add t c) t'
  = if String.eqb t t' then Some (S (default 0%nat (counter_get c t)))
    else counter_get c t'.
Proof.
  induction c as [|[t0 n] c IH]; simpl.
  - destruct (String.eqb t t'); reflexivity.
  - destruct (String.eqb t0 t) eqn:H0; simpl.
    + apply String.eqb_eq in H0 as ->.
      destruct (String.eqb t t'); reflexivity.
    + rewrite IH. destruct (String.eqb t t') eqn:Ht; [|done].
      apply String.eqb_eq in Ht as <-. by rewrite H0.
Qed.

Lemma counter_add_keys c t :
  (counter_add t c).*1 = if bool_decide (t ∈ c.*1) then c.*1 else c.*1 ++ [t].
Proof.
  induction c as [|[t0 n] c IH]; [done|].
  cbn [counter_add]. destruct (String.eqb t0 t) eqn:H0.
  - apply String.eqb_eq in H0 as ->. rewrite !fmap_cons. simpl.
    rewrite bool_decide_eq_true_2 by left. done.
  - apply String.eqb_neq in H0. rewrite !fmap_cons, IH. simpl.
    destruct (bool_decide (t ∈ c.*1)) eqn:Hin.
    + apply bool_decide_eq_true in Hin.
      rewrite bool_decide_eq_true_2 by (by right). done.
    + apply bool_decide_eq_false in Hin.
      rewrite bool_decide_eq_false_2; [done|].
      intros [?|?]%elem_of_cons; congruence.
Qed.

Lemma counter_add_NoDup c t : NoDup c.*1 → NoDup (counter_add t c).*1.
Proof.
  intros Hnd. rewrite counter_add_keys. case_bool_decide; [done|].
  apply NoDup_app. split_and!; [done| |apply NoDup_singleton].
  intros x Hx ->%list_elem_of_singleton. done.
Qed.

Lemma Counter_snoc tokens t :
  Counter (tokens ++ [t]) = counter_add t (Counter tokens).
Proof. unfold Counter. by rewrite fold_left_app. Qed.

Lemma term_frequency_snoc term tokens t :
  term_frequency term (tokens ++ [t])
  = (term_frequency term tokens + if String.eqb term t then 1 else 0)%nat.
Proof.
  unfold term_frequency. rewrite List.filter_app, length_app. simpl.
  by destruct (String.eqb term t).
Qed.

(** [Counter] holds each token once, with its number of occurrences. *)
Lemma Counter_spec tokens :
  NoDup (Counter tokens).*1
  ∧ ∀ t, counter_get (Counter tokens) t
         = if (0 <? term_frequency t tokens)%nat
           then Some (term_frequency t tokens) else None.
Proof.
  induction tokens as [|t0 tokens [IHnd IH]] using rev_ind.
  - split; [constructor|done].
  - rewrite Counter_snoc. split; [by apply counter_add_NoDup|].
    intros t. rewrite counter_get_add, term_frequency_snoc.
    destruct (String.eqb t0 t) eqn:Ht.
    + apply String.eqb_eq in Ht as ->. rewrite String.eqb_refl, IH.
      destruct (0 <? term_frequency t tokens)%nat eqn:Hz; simpl.
      * rewrite (proj2 (Nat.ltb_lt _ _)) by lia. f_equal. lia.
      * apply Nat.ltb_ge in Hz.
        replace (term_frequency t tokens) with 0%nat by lia. done.
    + rewrite String.eqb_sym, Ht, Nat.add_0_r. apply IH.
Qed.

Lemma counter_get_None c t : t ∉ c.*1 → counter_get c t = None.
Proof.
  induction c as [|[t0 n] c IH]; simpl; [done|].
  intros Hnot. destruct (String.eqb t0 t) eqn:H0.
  - apply String.eqb_eq in H0 as ->. exfalso. apply Hnot. left.
  - apply IH. intros ?. apply Hnot. by right.
Qed.

(** The posting loop of one document touches each counted term once. *)
Lemma append_postings_lookup doc_id c idx t :
  NoDup c.*1 →
  fold_left (append_posting doc_id) c idx !! t
  = match counter_get c t with
    | Some tf => Some (default [] (idx !! t) ++ [(doc_id, tf)])
    | None => idx !! t
    end.
Proof.
  revert idx. induction c as [|[t0 n] c IH]; intros idx Hnd; simpl; [done|].
  apply NoDup_cons in Hnd as [Hnot Hnd].
  rewrite IH by done.
  destruct (String.eqb t0 t) eqn:H0.
  - apply String.eqb_eq in H0 as ->.
    rewrite counter_get_None by done. by rewrite lookup_insert_eq.
  - apply String.eqb_neq in H0. by rewrite lookup_insert_ne.
Qed.

Lemma index_document_lookup E full st data t :
  inverted_index (index_document E full st data) !! t
  = let tf := term_frequency t (document_tokens E full data) in
    if (0 <? tf)%nat
    then Some (default [] (inverted_index st !! t) ++ [(_id data, tf)])
    else inverted_index st !! t.
Proof.
  unfold index_document. simpl.
  destruct (Counter_spec (document_tokens E full data)) as [Hnd Hget].
  unfold document_tokens in *.
  rewrite append_postings_lookup by done. rewrite Hget.
  by destruct (0 <? _)%nat.
Qed.

Lemma index_loop_lookup E full corpus st t :
  inverted_index (fold_left (index_document E full) corpus st) !! t
  = match postings_of E full corpus t with
    | [] => inverted_index st !! t
    | ps => Some (default [] (inverted_index st !! t) ++ ps)
    end.
Proof.
  revert st. induction corpus as [|data corpus IH]; intros st; simpl; [done|].
  rewrite IH, index_document_lookup. unfold postings_of. simpl.
  destruct (0 <? term_frequency t (document_tokens E full data))%nat; simpl.
  - destruct (omap _ corpus); [done|]. by rewrite <- app_assoc.
  - done.
Qed.

(** X3. The postings list of a term, as [build_index] returns it, names
    exactly the documents whose tokens contain the term, in corpus order,
    each with the number of occurrences; a term no document contains is not
    a key of the index. *)
Theorem build_index_postings (E : env) (corpus : list document)
    (full : bool) (term : string) :
  (build_index E corpus full).1.1.1 !! term
  = match postings_of E full corpus term with
    | [] => None
    | ps => Some ps
    end.
Proof.
  unfold build_index. simpl. rewrite index_loop_lookup. simpl.
  by rewrite lookup_empty.
Qed.

Lemma index_loop_total_tokens E full corpus st :
  total_tokens (fold_left (index_document E full) corpus st)
  = (total_tokens st + corpus_length E full corpus)%nat.
Proof.
  revert st. induction corpus as [|data corpus IH]; intros st.
  - simpl. unfold corpus_length. simpl. lia.
  - simpl. rewrite IH. unfold corpus_length. rewrite fmap_cons. simpl.
    unfold document_tokens. lia.
Qed.

Lemma index_loop_doc_lengths E full corpus st doc_id :
  doc_lengths (fold_left (index_document E full) corpus st) !! doc_id
  = match last_document corpus doc_id with
    | Some data => Some (List.length (document_tokens E full data))
    | None => doc_lengths st !! doc_id
    end.
Proof.
  revert st. induction corpus as [|data corpus IH]; intros st; [done|].
  simpl. rewrite IH. unfold last_document. rewrite filter_cons.
  case_decide as Hid.
  - rewrite last_cons.
    destruct (last (filter _ corpus)); [done|].
    unfold index_document. simpl. rewrite <- Hid.
    by rewrite lookup_insert_eq.
  - destruct (last (filter _ corpus)); [done|].
    unfold index_document. simpl. by rewrite lookup_insert_ne.
Qed.

(** X4. The statistics [build_index] returns: [N] counts the documents;
    the length table gives every id the token count of the last document
    carrying it, also when that count is 0, and has no other key; the
    average is the total token count over [N], and 0 for an empty corpus. *)
Theorem build_index_statistics (E : env) (corpus : list document)
    (full : bool) :
  let doc_lens := (build_index E corpus full).1.1.2 in
  let avg_len := (build_index E corpus full).1.2 in
  let N := (build_index E corpus full).2 in
  N = List.length corpus
  ∧ (∀ doc_id,
       doc_lens !! doc_id
       = (λ data, List.length (document_tokens E full data))
           <$> last_document corpus doc_id)
  ∧ (avg_len
     == if (0 <? N)%nat then of_nat (corpus_length E full corpus) / of_nat N
        else 0)%Q.
Proof.
  unfold build_index. simpl.
  rewrite index_loop_num_docs, index_loop_total_tokens. simpl.
  split_and!.
  - done.
  - intros doc_id. rewrite index_loop_doc_lengths. simpl.
    by destruct (last_document corpus doc_id).
  - by destruct (0 <? List.length corpus)%nat.
Qed.

(** * Scoring against a built index *)

Lemma term_frequency_pos term tokens :
  (0 < term_frequency term tokens)%nat ↔ term ∈ tokens.
Proof.
  unfold term_frequency. induction tokens as [|t tokens IH]; simpl.
  - split; [lia|]. by intros ?%elem_of_nil.
  - destruct (String.eqb term t) eqn:Ht; simpl.
    + apply String.eqb_eq in Ht as ->. split; [left|lia].
    + apply String.eqb_neq in Ht. rewrite IH, elem_of_cons.
      split; [by right|]. by intros [?|?].
Qed.

Lemma postings_of_elem E full corpus term doc_id tf :
  (doc_id, tf) ∈ postings_of E full corpus term ↔
  ∃ data, data ∈ corpus ∧ _id data = doc_id
          ∧ tf = term_frequency term (document_tokens E full data)
          ∧ (0 < tf)%nat.
Proof.
  unfold postings_of. rewrite list_elem_of_omap. split.
  - intros (data & Hdata & Hsome). exists data. simpl in Hsome.
    destruct (0 <? _)%nat eqn:Hpos; [|done].
    apply Nat.ltb_lt in Hpos. injection Hsome as <- <-. done.
  - intros (data & Hdata & <- & -> & Hpos). exists data. split; [done|].
    simpl. by rewrite (proj2 (Nat.ltb_lt _ _)).
Qed.

Lemma postings_of_length E full corpus term :
  (List.length (postings_of E full corpus term) ≤ List.length corpus)%nat.
Proof.
  unfold postings_of. induction corpus as [|data corpus IH]; [done|].
  cbn [omap list_omap]. simpl in *.
  destruct (0 <? term_frequency term (document_tokens E full data))%nat;
    simpl; lia.
Qed.

Lemma last_document_is_Some corpus data :
  data ∈ corpus → is_Some (last_document corpus (_id data)).
Proof.
  intros Hin. unfold last_document.
  destruct (last _) eqn:Hlast; [by eexists|].
  apply last_None in Hlast.
  assert (data ∈ filter (λ d, _id d = _id data) corpus)
    by by apply list_elem_of_filter.
  rewrite Hlast in *. by apply elem_of_nil in H.
Qed.

(** What [score_query] may rely on when its arguments come from
    [build_index]. *)
Lemma build_index_lookup_Some E corpus full index doc_lens avg_len N term ps :
  build_index E corpus full = (index, doc_lens, avg_len, N) →
  index !! term = Some ps →
  ps = postings_of E full corpus term
  ∧ N = List.length corpus
  ∧ (0 < avg_len)%Q
  ∧ ∀ data, data ∈ corpus → is_Some (doc_lens !! _id data).
Proof.
  intros Hb Hps.
  assert (Havg : ¬ (avg_len == 0)%Q).
  { intros H0. rewrite (build_index_zero_average _ _ _ _ _ _ _ Hb H0) in Hps.
    by rewrite lookup_empty in Hps. }
  unfold build_index in Hb. injection Hb as <- <- <- <-.
  rewrite index_loop_lookup in Hps. simpl in Hps. rewrite lookup_empty in Hps.
  split_and!.
  - destruct (postings_of E full corpus term); [done|]. by injection Hps.
  - by rewrite index_loop_num_docs.
  - destruct (0 <? _)%nat eqn:Hn; [|by destruct Havg].
    apply Nat.ltb_lt, of_nat_pos in Hn.
    assert (0 <= of_nat (total_tokens
      (fold_left (index_document E full) corpus (IndexState ∅ ∅ 0 0)))
      / of_nat (num_docs
      (fold_left (index_document E full) corpus (IndexState ∅ ∅ 0 0))))%Q.
    { apply Qle_shift_div_l; [done|].
      rewrite Qmult_0_l. apply of_nat_nonneg. }
    destruct (Qle_lt_or_eq _ _ H) as [Hlt|Heq]; [done|].
    exfalso. apply Havg. by symmetry.
  - intros data Hdata. rewrite index_loop_doc_lengths.
    by destruct (last_document_is_Some corpus data Hdata) as [d ->].
Qed.

Lemma idf_positive (N df : nat) :
  (df ≤ N)%nat → ∃ v : R, idf N df = Ok v ∧ (0 < v)%R.
Proof.
  intros Hle.
  pose proof (of_nat_le _ _ Hle) as HN.
  pose proof (of_nat_nonneg df) as Hdf.
  unfold idf, math_log.
  generalize dependent (of_nat N). generalize dependent (of_nat df).
  intros d Hd n Hn.
  assert (Hfrac : (0 < (n - d + (1 # 2)) / (d + (1 # 2)))%Q).
  { apply Qlt_shift_div_l; lra. }
  set (x := ((n - d + (1 # 2)) / (d + (1 # 2)) + 1)%Q).
  assert (Hx : (1 < x)%Q) by (subst x; lra).
  destruct (Qle_bool x 0) eqn:Hb.
  - apply Qle_bool_iff in Hb. lra.
  - eexists. split; [reflexivity|].
    apply Qlt_Rlt in Hx. rewrite RMicromega.Q2R_1 in Hx.
    rewrite <- ln_1. apply ln_increasing; lra.
Qed.

Lemma scores_add_keys doc_id x scores :
  (scores_add doc_id x scores).*1
  = if bool_decide (doc_id ∈ scores.*1) then scores.*1
    else scores.*1 ++ [doc_id].
Proof.
  induction scores as [|[d s] scores IH]; [done|].
  cbn [scores_add]. destruct (String.eqb d doc_id) eqn:Hd.
  - apply String.eqb_eq in Hd as ->. rewrite !fmap_cons. simpl.
    by rewrite bool_decide_eq_true_2 by left.
  - apply String.eqb_neq in Hd. rewrite !fmap_cons, IH. simpl.
    destruct (bool_decide (doc_id ∈ scores.*1)) eqn:Hin.
    + apply bool_decide_eq_true in Hin.
      by rewrite bool_decide_eq_true_2 by (by right).
    + apply bool_decide_eq_false in Hin.
      rewrite bool_decide_eq_false_2; [done|].
      intros [?|?]%elem_of_cons; congruence.
Qed.

Lemma scores_add_positive doc_id x scores :
  (0 < x)%R → Forall (λ p, (0 < p.2)%R) scores →
  Forall (λ p, (0 < p.2)%R) (scores_add doc_id x scores).
Proof.
  intros Hx. induction 1 as [|[d s] scores Hs Hrest IH]; simpl.
  - repeat constructor. simpl. lra.
  - destruct (String.eqb d doc_id); constructor; simpl in *; try done. lra.
Qed.

Lemma scores_add_ok doc_id x scores :
  (0 < x)%R → scores_ok scores →
  scores_ok (scores_add doc_id x scores)
  ∧ ∀ d, d ∈ (scores_add doc_id x scores).*1 ↔ d = doc_id ∨ d ∈ scores.*1.
Proof.
  intros Hx [Hnd Hpos]. split; [split|].
  - rewrite scores_add_keys. case_bool_decide; [done|].
    apply NoDup_app. split_and!; [done| |apply NoDup_singleton].
    by intros d Hd ->%list_elem_of_singleton.
  - by apply scores_add_positive.
  - intros d. rewrite scores_add_keys. case_bool_decide.
    + split; [by right|]. by intros [->|?].
    + rewrite elem_of_app, list_elem_of_singleton. tauto.
Qed.

Lemma bm25_fraction_positive (tf doc_len : nat) (avg_len : Q) :
  (0 < tf)%nat → (0 < avg_len)%Q →
  ∃ ratio frac,
    truediv (of_nat doc_len) avg_len = Ok ratio
    ∧ truediv (of_nat tf * (k1 + 1)) (of_nat tf + k1 * (1 - b + b * ratio))
      = Ok frac
    ∧ (0 < frac)%Q.
Proof.
  intros Htf Havg.
  exists (of_nat doc_len / avg_len)%Q.
  rewrite truediv_ok by lra.
  assert (Hratio : (0 <= of_nat doc_len / avg_len)%Q).
  { apply Qle_shift_div_l; [done|].
    rewrite Qmult_0_l. apply of_nat_nonneg. }
  apply of_nat_pos in Htf.
  generalize dependent (of_nat doc_len / avg_len)%Q.
  generalize dependent (of_nat tf). intros t Ht ratio Hratio.
  unfold k1, b.
  assert (Hden : (0 < t + (12 # 10) * (1 - (3 # 4) + (3 # 4) * ratio))%Q)
    by lra.
  eexists. split; [reflexivity|].
  rewrite truediv_ok by lra. split; [reflexivity|].
  apply Qlt_shift_div_l; [done|]. lra.
Qed.

Lemma score_postings_ok idf doc_lens avg_len postings scores :
  (0 < idf)%R → (0 < avg_len)%Q →
  Forall (λ p, is_Some (doc_lens !! p.1) ∧ (0 < p.2)%nat) postings →
  scores_ok scores →
  ∃ scores',
    score_postings idf doc_lens avg_len postings scores = Ok scores'
    ∧ scores_ok scores'
    ∧ ∀ d, d ∈ scores'.*1 ↔ d ∈ scores.*1 ∨ d ∈ postings.*1.
Proof.
  intros Hidf Havg Hposts. revert scores.
  induction Hposts as [|[doc_id tf] postings [[n Hn] Htf] Hrest IH];
    intros scores Hok.
  - exists scores. split_and!; [done..|].
    intros d. rewrite fmap_nil, elem_of_nil. tauto.
  - cbn [score_postings fst snd] in *. rewrite Hn.
    cbn [mbind result_bind].
    destruct (bm25_fraction_positive tf n avg_len Htf Havg)
      as (ratio & frac & Hr & Hf & Hfrac).
    rewrite Hr. cbn [mbind result_bind].
    rewrite Hf. cbn [mbind result_bind].
    assert (Hx : (0 < idf * Q2R frac)%R).
    { apply Rmult_lt_0_compat; [done|].
      apply Qlt_Rlt in Hfrac. by rewrite RMicromega.Q2R_0 in Hfrac. }
    destruct (scores_add_ok doc_id _ scores Hx Hok) as [Hok' Hkeys].
    destruct (IH _ Hok') as (scores' & -> & Hok'' & Hkeys').
    exists scores'. split_and!; [done..|].
    intros d. rewrite Hkeys', Hkeys, fmap_cons, elem_of_cons. simpl. tauto.
Qed.

Lemma build_index_lookup E corpus full index doc_lens avg_len N term :
  build_index E corpus full = (index, doc_lens, avg_len, N) →
  index !! term
  = match postings_of E full corpus term with
    | [] => None
    | ps => Some ps
    end.
Proof.
  unfold build_index. intros [= <- _ _ _].
  rewrite index_loop_lookup. simpl. by rewrite lookup_empty.
Qed.

Lemma score_terms_on_index E corpus full index doc_lens avg_len N
    query_tokens scores :
  build_index E corpus full = (index, doc_lens, avg_len, N) →
  scores_ok scores →
  ∃ scores',
    score_terms query_tokens index doc_lens avg_len N scores = Ok scores'
    ∧ scores_ok scores'
    ∧ ∀ d, d ∈ scores'.*1 ↔
           d ∈ scores.*1
           ∨ ∃ term, term ∈ query_tokens
                     ∧ d ∈ (postings_of E full corpus term).*1.
Proof.
  intros Hb. revert scores.
  induction query_tokens as [|term rest IH]; intros scores Hok; simpl.
  - exists scores. split_and!; [done..|].
    intros d. split; [by left|]. intros [?|(t & ?%elem_of_nil & _)]; done.
  - pose proof (build_index_lookup _ _ _ _ _ _ _ term Hb) as Hlook.
    destruct (index !! term) as [postings|] eqn:Hterm.
    + destruct (build_index_lookup_Some _ _ _ _ _ _ _ _ _ Hb Hterm)
        as (Hps & HN & Havg & Hlens).
      destruct (idf_positive N (List.length postings)) as (v & -> & Hv).
      { rewrite Hps, HN. apply postings_of_length. }
      simpl.
      destruct (score_postings_ok v doc_lens avg_len postings scores Hv Havg)
        as (scores1 & -> & Hok1 & Hkeys1); [|done|].
      { apply Forall_forall. intros [doc_id tf] Hin. rewrite Hps in Hin.
        apply postings_of_elem in Hin as (data & Hdata & <- & _ & Hpos).
        split; [by apply Hlens|done]. }
      simpl. destruct (IH _ Hok1) as (scores' & -> & Hok' & Hkeys').
      exists scores'. split_and!; [done..|].
      intros d. rewrite Hkeys', Hkeys1, Hps. split.
      * intros [[?|?]|(t & Ht & Hd)]; [by left| |].
        -- right. exists term. split; [left|done].
        -- right. exists t. split; [by right|done].
      * intros [?|(t & [->|Ht]%elem_of_cons & Hd)].
        -- by left; left.
        -- by left; right.
        -- right. by exists t.
    + destruct (IH _ Hok) as (scores' & -> & Hok' & Hkeys').
      exists scores'. split_and!; [done..|].
      intros d. rewrite Hkeys'. split.
      * intros [?|(t & Ht & Hd)]; [by left|].
        right. exists t. split; [by right|done].
      * intros [?|(t & [->|Ht]%elem_of_cons & Hd)]; [by left| |].
        -- destruct (postings_of E full corpus term); [|done].
           by apply elem_of_nil in Hd.
        -- right. by exists t.
Qed.

Lemma scores_ok_nil : scores_ok [].
Proof. split; constructor. Qed.

(** X5. On the index and statistics of any corpus, [score_query] raises
    nothing for any query: every document length is found, no divisor and
    no logarithm argument is out of range.  Every score it returns is
    strictly positive. *)
Theorem score_query_on_index_positive (E : env) (corpus : list document)
    (full : bool) (query_tokens : list string) :
  let built := build_index E corpus full in
  ∃ scores,
    score_query query_tokens built.1.1.1 built.1.1.2 built.1.2 built.2
    = Ok scores
    ∧ Forall (λ p, (0 < p.2)%R) scores.
Proof.
  intros built.
  destruct built as [[[index doc_lens] avg_len] N] eqn:Hb. simpl.
  destruct (score_terms_on_index E corpus full index doc_lens avg_len N
              query_tokens [] Hb scores_ok_nil)
    as (scores & Hs & [_ Hpos] & _).
  by exists scores.
Qed.

(** X6. On the index and statistics of any corpus, the score mapping has
    one entry per scored document, and the scored documents are exactly
    those with a token equal to some query token. *)
Theorem score_query_on_index_documents (E : env) (corpus : list document)
    (full : bool) (query_tokens : list string) :
  let built := build_index E corpus full in
  ∃ scores,
    score_query query_tokens built.1.1.1 built.1.1.2 built.1.2 built.2
    = Ok scores
    ∧ NoDup scores.*1
    ∧ ∀ doc_id,
        doc_id ∈ scores.*1 ↔
        ∃ term data,
          term ∈ query_tokens ∧ data ∈ corpus ∧ _id data = doc_id
          ∧ term ∈ document_tokens E full data.
Proof.
  intros built.
  destruct built as [[[index doc_lens] avg_len] N] eqn:Hb. simpl.
  destruct (score_terms_on_index E corpus full index doc_lens avg_len N
              query_tokens [] Hb scores_ok_nil)
    as (scores & Hs & [Hnd _] & Hkeys).
  exists scores. split_and!; [done..|].
  intros doc_id. rewrite Hkeys. split.
  - intros [?%elem_of_nil|(term & Hterm & Hd)]; [done|].
    apply list_elem_of_fmap in Hd as ([d tf] & -> & Hin).
    apply postings_of_elem in Hin as (data & Hdata & Hid & -> & Hpos).
    exists term, data. split_and!; [done..|]. by apply term_frequency_pos.
  - intros (term & data & Hterm & Hdata & <- & Htok). right.
    exists term. split; [done|].
    apply list_elem_of_fmap.
    exists (_id data, term_frequency term (document_tokens E full data)).
    split; [done|]. apply postings_of_elem. exists data.
    split_and!; [done..|]. by apply term_frequency_pos.
Qed.

(** * Further properties of the ranking step *)

Section StableSort.
Context {A : Type} (le : A → A → bool) (P : A → bool).
Hypothesis P_tied : ∀ x y, P x = true → P y = true → le x y = true.

Lemma insert_sorted_split (x : A) (l : list A) :
  ∃ l1 l2, l = l1 ++ l2 ∧ insert_sorted le x l = l1 ++ x :: l2
           ∧ Forall (λ y, le x y = false) l1.
Proof.
  induction l as [|y l (l1 & l2 & -> & Hins & Hl1)]; simpl.
  - by exists [], [].
  - destruct (le x y) eqn:Hxy.
    + by exists [], (y :: l1 ++ l2).
    + exists (y :: l1), l2. rewrite Hins. split_and!; [done..|].
      by constructor.
Qed.

Lemma insert_sorted_filter (x : A) (l : list A) :
  List.filter P (insert_sorted le x l)
  = if P x then x :: List.filter P l else List.filter P l.
Proof.
  destruct (insert_sorted_split x l) as (l1 & l2 & -> & -> & Hl1).
  rewrite !List.filter_app. simpl.
  destruct (P x) eqn:Hx; [|done].
  assert (Hnone : List.filter P l1 = []).
  { induction Hl1 as [|y l1 Hy Hl1 IH]; simpl; [done|].
    destruct (P y) eqn:Hy'; [|exact IH].
    rewrite (P_tied x y Hx Hy') in Hy. discriminate. }
  by rewrite Hnone.
Qed.

Lemma py_sorted_filter (l : list A) :
  List.filter P (py_sorted le l) = List.filter P l.
Proof.
  induction l as [|x l IH]; simpl; [done|].
  by rewrite insert_sorted_filter, IH.
Qed.
End StableSort.

(** X7. Ties are broken by the order of the score mapping: the documents
    that share a score stand, in the sorted list that is cut to 100, in the
    order in which [score_query] first scored them. *)
Theorem ranking_keeps_order_of_ties (doc_scores : list (string * R)) (s : R) :
  List.filter (tied_with s) (py_sorted score_ge doc_scores)
  = List.filter (tied_with s) doc_scores.
Proof.
  apply py_sorted_filter. intros x y Hx Hy.
  unfold tied_with in *.
  destruct (Req_dec_T x.2 s) as [Hxs|]; [|done].
  destruct (Req_dec_T y.2 s) as [Hys|]; [|done].
  apply score_ge_spec. lra.
Qed.

Lemma NoDup_take {A} (l : list A) (n : nat) : NoDup l → NoDup (take n l).
Proof.
  intros Hnd. rewrite <- (take_drop n l) in Hnd.
  by apply NoDup_app in Hnd as [? _].
Qed.

(** X8. For any corpus and any query text, the query body of [run_system]
    on the index built from the corpus raises nothing, and its rows name no
    document twice. *)
Theorem run_query_on_index (E : env) (corpus : list document) (full : bool)
    (q_id q_text : string) :
  let built := build_index E corpus full in
  ∃ rows,
    run_query E q_id q_text built.1.1.1 built.1.1.2 built.1.2 built.2
    = Ok rows
    ∧ NoDup ((λ r, (row_doc_score r).1) <$> rows).
Proof.
  intros built.
  destruct built as [[[index doc_lens] avg_len] N] eqn:Hb. simpl.
  destruct (score_terms_on_index E corpus full index doc_lens avg_len N
              (preprocess E q_text true) [] Hb scores_ok_nil)
    as (scores & Hs & [Hnd _] & _).
  unfold run_query, score_query. rewrite Hs. simpl.
  eexists. split; [reflexivity|].
  unfold rank_rows.
  rewrite <- list_fmap_compose.
  replace (_ <$> enumerate (sorted_docs scores) 1)
    with ((fst ∘ snd) <$> enumerate (sorted_docs scores) 1)
    by (apply list_fmap_ext; by intros ? [? [? ?]]).
  rewrite list_fmap_compose, enumerate_snd.
  unfold sorted_docs. rewrite fmap_take. apply NoDup_take.
  by rewrite (py_sorted_perm score_ge scores).
Qed.

(** * Further properties of [calculate_metrics] *)

(** One iteration either skips the query or stores its record and adds it
    to every accumulator. *)
Lemma query_step_cases qrels results t q t' :
  is_Some (qrels !! q) →
  query_step qrels results t q = Ok t' →
  (t' = t ∧ ¬ qualifies qrels results q)
  ∨ ∃ rel docs m,
      qrels !! q = Some rel ∧ results !! q = Some docs ∧ rel ≠ ∅
      ∧ evaluate_query rel docs = Ok m
      ∧ t' = {| query_metrics := <[q := m]> (query_metrics t);
                total_queries := total_queries t + 1;
                total_relevant := total_relevant t + q_num_rel m;
                total_retrieved := total_retrieved t + q_num_ret m;
                total_rel_ret := total_rel_ret t + q_num_rel_ret m;
                sum_ap := (sum_ap t + q_ap m)%Q;
                sum_p5 := (sum_p5 t + q_P_5 m)%Q;
                sum_p10 := (sum_p10 t + q_P_10 m)%Q;
                sum_p30 := (sum_p30 t + q_P_30 m)%Q;
                sum_recall := (sum_recall t + q_recall m)%Q;
                sum_rprec := (sum_rprec t + q_Rprec m)%Q;
                sum_recip_rank := (sum_recip_rank t + q_recip_rank m)%Q |}.
Proof.
  intros [rel Hrel]. unfold query_step. rewrite Hrel.
  destruct (results !! q) as [docs|] eqn:Hdocs.
  - simpl. case_bool_decide as Hempty.
    + intros [= <-]. left. split; [done|].
      intros (rel' & docs' & Hrel' & _ & Hne). congruence.
    + destruct (evaluate_query rel docs) as [m|] eqn:Hm; simpl; [|done].
      intros [= <-]. right. by exists rel, docs, m.
  - intros [= <-]. left. split; [done|].
    intros (rel' & docs' & _ & Hdocs' & _). congruence.
Qed.

Lemma query_loop_domain qrels results ids t t' q :
  (∀ q', q' ∈ ids → is_Some (qrels !! q')) →
  query_loop qrels results ids t = Ok t' →
  is_Some (query_metrics t' !! q) →
  is_Some (query_metrics t !! q) ∨ qualifies qrels results q.
Proof.
  revert t. induction ids as [|q0 ids IH]; intros t Hids Hloop Hq;
    simpl in Hloop.
  - injection Hloop as <-. by left.
  - destruct (query_step qrels results t q0) as [t1|] eqn:Hstep;
      simpl in Hloop; [|done].
    destruct (IH t1) as [Hq1|Hqual]; [by intros; apply Hids; right|done..| |];
      [|by right].
    destruct (query_step_cases _ _ _ _ _ (Hids q0 ltac:(left)) Hstep)
      as [[-> _]|(rel & docs & m & Hrel & Hdocs & Hne & _ & ->)]; [by left|].
    simpl in Hq1. destruct (decide (q0 = q)) as [->|Hneq].
    + right. by exists rel, docs.
    + rewrite lookup_insert_ne in Hq1 by done. by left.
Qed.

(** X9. When [calculate_metrics] returns, the per-query metrics have a
    record for exactly the queries that are judged with a non-empty
    relevant set and present in the results; any other query is skipped
    without an error. *)
Theorem calculate_metrics_domain (qrels : gmap string (gset string))
    (results : gmap string (list row)) all_metrics metrics :
  calculate_metrics qrels results = Ok (all_metrics, metrics) →
  ∀ q, is_Some (metrics !! q) ↔ qualifies qrels results q.
Proof.
  intros Hcalc q. split.
  - unfold calculate_metrics in Hcalc.
    destruct (query_loop qrels results (sorted_keys qrels) totals0) as [t|]
      eqn:Hloop; simpl in Hcalc; [|done].
    injection Hcalc as _ <-. intros Hq.
    destruct (query_loop_domain _ _ _ _ _ q
                (λ q', proj1 (sorted_keys_elem qrels q')) Hloop Hq)
      as [Hinit|?]; [|done].
    simpl in Hinit. rewrite lookup_empty in Hinit. by destruct Hinit.
  - intros (rel & docs & Hrel & Hdocs & Hne).
    destruct (calculate_metrics_query _ _ _ _ q rel docs Hcalc Hrel Hdocs Hne)
      as (m & _ & ->).
    by eexists.
Qed.

Lemma calculate_metrics_domain_witness :
  let qrels : gmap string (gset string) :=
    {[ "Q1" := example_relevant; "Q2" := {[ "D9" ]} ]} in
  let results : gmap string (list row) :=
    {[ "Q1" := example_retrieved; "Q3" := [("D1", 1%Z, 1%Q)] ]} in
  ∃ all_metrics metrics,
    calculate_metrics qrels results = Ok (all_metrics, metrics)
    ∧ ∀ q, is_Some (metrics !! q) ↔ qualifies qrels results q.
Proof.
  intros qrels results.
  destruct (calculate_metrics qrels results) as [[all_metrics metrics]|]
    eqn:Hcalc; [|by vm_compute in Hcalc].
  exists all_metrics, metrics. split; [reflexivity|].
  exact (calculate_metrics_domain qrels results all_metrics metrics Hcalc).
Defined.

(** ** The only errors *)

Lemma reciprocal_of_rank_raises (rank : Z) (e : exn) :
  (divisor ← float_of_int rank; truediv 1 divisor) = Raise e →
  rank_error e rank.
Proof.
  destruct (float_of_int rank) as [divisor|e'] eqn:Hconv;
    cbn [mbind result_bind].
  - unfold float_of_int in Hconv.
    destruct (Z.abs rank <? float_int_limit)%Z; [|done].
    injection Hconv as <-. unfold truediv.
    destruct (Qeq_bool (inject_Z rank) 0) eqn:Hz; [|done].
    intros [= <-]. left. split; [done|].
    apply Qeq_bool_iff in Hz. unfold Qeq in Hz. simpl in Hz. lia.
  - intros [= ->]. right. by apply float_of_int_raises.
Qed.

Lemma reciprocal_rank_raises relevant_docs l e :
  reciprocal_rank relevant_docs l = Raise e →
  ∃ before r after,
    l = before ++ r :: after
    ∧ Forall (λ r', doc_id_of r' ∉ relevant_docs) before
    ∧ doc_id_of r ∈ relevant_docs ∧ rank_error e (rank_of r).
Proof.
  induction l as [|[[doc_id rank] score] l IH]; cbn [reciprocal_rank];
    [done|].
  case_bool_decide as Hrel.
  - intros Hraise.
    exists [], (doc_id, rank, score), l. split_and!; [done|constructor|done|].
    by apply reciprocal_of_rank_raises.
  - intros Hl. destruct (IH Hl) as (before & r & after & -> & Hb & Hr & H0).
    exists ((doc_id, rank, score) :: before), r, after.
    split_and!; [done| |done..]. by constructor.
Qed.

Lemma evaluate_query_raises relevant_docs retrieved_docs e :
  relevant_docs ≠ ∅ →
  evaluate_query relevant_docs retrieved_docs = Raise e →
  reciprocal_rank relevant_docs retrieved_docs = Raise e.
Proof.
  intros Hne. unfold evaluate_query, at_ranks.
  destruct (at_ranks_loop_spec relevant_docs _ retrieved_docs 0 0 [] []
              (size_non_empty_pos _ Hne)) as [ps ->].
  simpl. set (rs := _ <$> _).
  destruct (ap_loop_bounds relevant_docs retrieved_docs 0 0 0%Q)
    as (v & Hloop & _); [lia|].
  unfold average_precision. rewrite Hloop. simpl.
  rewrite (proj2 (Nat.ltb_lt 0 _))
    by (pose proof (size_non_empty_pos _ Hne); lia).
  rewrite truediv_of_nat by by apply size_non_empty_pos. simpl.
  destruct (precision_at_returns ps 5) as [? ->]. simpl.
  destruct (precision_at_returns ps 10) as [? ->]. simpl.
  destruct (precision_at_returns ps 30) as [? ->]. simpl.
  destruct (final_recall_of_returns rs) as [? ->]. simpl.
  destruct (r_precision_returns _ retrieved_docs Hne) as [? ->]. simpl.
  destruct (reciprocal_rank relevant_docs retrieved_docs); simpl;
    [intros H; discriminate H|intros H; by injection H as ->].
Qed.

Lemma query_loop_raises qrels results ids t e :
  (∀ q, q ∈ ids → is_Some (qrels !! q)) →
  query_loop qrels results ids t = Raise e →
  ∃ q rel docs,
    qrels !! q = Some rel ∧ results !! q = Some docs ∧ rel ≠ ∅
    ∧ reciprocal_rank rel docs = Raise e.
Proof.
  revert t. induction ids as [|q0 ids IH]; intros t Hids Hloop;
    simpl in Hloop; [done|].
  destruct (query_step qrels results t q0) as [t1|e'] eqn:Hstep;
    simpl in Hloop.
  - apply (IH t1); [|done]. intros q Hq. apply Hids. by right.
  - injection Hloop as ->. clear IH.
    unfold query_step in Hstep.
    destruct (results !! q0) as [docs|] eqn:Hdocs; [|done].
    destruct (Hids q0) as [rel Hrel]; [left|].
    rewrite Hrel in Hstep. simpl in Hstep.
    case_bool_decide as Hne; [done|].
    destruct (evaluate_query rel docs) as [m|e'] eqn:Hm; simpl in Hstep;
      [done|].
    injection Hstep as ->.
    exists q0, rel, docs. split_and!; [done..|].
    by apply evaluate_query_raises.
Qed.

(** X10. [calculate_metrics] raises only in [1.0 / rank], on the first
    relevant row of the run of some evaluated query: [ZeroDivisionError]
    when its rank field is 0, [OverflowError] when its rank field is too
    large for a float, and nothing else; [main] then prints that error and
    exits with status 1. *)
Theorem calculate_metrics_only_error (qrels : gmap string (gset string))
    (results : gmap string (list row)) (e : exn) :
  calculate_metrics qrels results = Raise e →
  main qrels results = ([ErrorLine e], 1%Z)
  ∧ ∃ q rel docs before r after,
      qrels !! q = Some rel ∧ results !! q = Some docs ∧ rel ≠ ∅
      ∧ docs = before ++ r :: after
      ∧ Forall (λ r', doc_id_of r' ∉ rel) before
      ∧ doc_id_of r ∈ rel
      ∧ (e = ZeroDivisionError ∧ rank_of r = 0%Z
         ∨ e = OverflowError
           ∧ (float_int_limit <= Z.abs (rank_of r))%Z).
Proof.
  intros Hcalc.
  assert (Hloop : query_loop qrels results (sorted_keys qrels) totals0
                  = Raise e).
  { unfold calculate_metrics in Hcalc.
    destruct (query_loop qrels results (sorted_keys qrels) totals0)
      as [t|e'] eqn:Hl; simpl in Hcalc; [discriminate|].
    by injection Hcalc as ->. }
  destruct (query_loop_raises _ _ _ _ _
              (λ q, proj1 (sorted_keys_elem qrels q)) Hloop)
    as (q & rel & docs & Hrel & Hdocs & Hne & Hrr).
  destruct (reciprocal_rank_raises _ _ _ Hrr)
    as (before & r & after & Hsplit & Hbefore & Hr & Hrank).
  split.
  - unfold main. by rewrite Hcalc.
  - by exists q, rel, docs, before, r, after.
Qed.

Lemma calculate_metrics_only_error_witness :
  let qrels : gmap string (gset string) := {[ "Q1" := {[ "D1" ]} ]} in
  let zero : gmap string (list row) :=
    {[ "Q1" := [("D2", 1%Z, 2%Q); ("D1", 0%Z, 1%Q)] ]} in
  let huge : gmap string (list row) :=
    {[ "Q1" := [("D2", 1%Z, 2%Q); ("D1", (10 ^ 400)%Z, 1%Q)] ]} in
  (calculate_metrics qrels zero = Raise ZeroDivisionError
   ∧ main qrels zero = ([ErrorLine ZeroDivisionError], 1%Z))
  ∧ (calculate_metrics qrels huge = Raise OverflowError
     ∧ main qrels huge = ([ErrorLine OverflowError], 1%Z)).
Proof.
  intros qrels zero huge.
  assert (Hzero : calculate_metrics qrels zero = Raise ZeroDivisionError)
    by (vm_compute; reflexivity).
  assert (Hhuge : calculate_metrics qrels huge = Raise OverflowError)
    by (vm_compute; reflexivity).
  split; (split; [done|]).
  - exact (proj1 (calculate_metrics_only_error qrels zero _ Hzero)).
  - exact (proj1 (calculate_metrics_only_error qrels huge _ Hhuge)).
Defined.

(** ** The aggregate metrics *)

Lemma sum_list_perm (f : query_record → Q) (l1 l2 : list (string * query_record)) :
  l1 ≡ₚ l2 →
  (foldr (λ p acc, f p.2 + acc) 0 l1 == foldr (λ p acc, f p.2 + acc) 0 l2)%Q.
Proof.
  induction 1 as [|x l1 l2 _ IH|x y l|l1 l2 l3 _ IH1 _ IH2]; simpl.
  - reflexivity.
  - by rewrite IH.
  - ring.
  - by rewrite IH1.
Qed.

Lemma sum_over_empty f : sum_over f ∅ = 0%Q.
Proof. unfold sum_over. by rewrite map_to_list_empty. Qed.

Lemma sum_over_insert f (metrics : gmap string query_record) q m :
  metrics !! q = None →
  (sum_over f (<[q := m]> metrics) == f m + sum_over f metrics)%Q.
Proof.
  intros Hq. unfold sum_over.
  by rewrite (sum_list_perm f _ _ (map_to_list_insert metrics q m Hq)).
Qed.

Lemma of_nat_add (n m : nat) : (of_nat (n + m) == of_nat n + of_nat m)%Q.
Proof.
  unfold of_nat. by rewrite Nat2Z.inj_add, inject_Z_plus.
Qed.

Lemma totals_ok_initial : totals_ok totals0.
Proof.
  unfold totals_ok. simpl. rewrite !sum_over_empty.
  split_and!; reflexivity.
Qed.

Lemma query_loop_totals_ok qrels results ids t t' :
  NoDup ids →
  (∀ q, q ∈ ids → is_Some (qrels !! q)) →
  (∀ q, q ∈ ids → query_metrics t !! q = None) →
  totals_ok t →
  query_loop qrels results ids t = Ok t' →
  totals_ok t'.
Proof.
  revert t. induction ids as [|q ids IH]; intros t Hnd Hids Hfresh Hok Hloop;
    simpl in Hloop.
  - by injection Hloop as <-.
  - apply NoDup_cons in Hnd as [Hq Hnd].
    destruct (query_step qrels results t q) as [t1|] eqn:Hstep;
      simpl in Hloop; [|done].
    apply (IH t1); [done|by intros; apply Hids; right| | |done].
    + destruct (query_step_cases _ _ _ _ _ (Hids q ltac:(left)) Hstep)
        as [[-> _]|(rel & docs & m & _ & _ & _ & _ & ->)].
      * intros q' Hq'. apply Hfresh. by right.
      * intros q' Hq'. simpl. rewrite lookup_insert_ne by congruence.
        apply Hfresh. by right.
    + destruct (query_step_cases _ _ _ _ _ (Hids q ltac:(left)) Hstep)
        as [[-> _]|(rel & docs & m & _ & _ & _ & _ & ->)]; [done|].
      pose proof (Hfresh q ltac:(left)) as Hnone.
      destruct Hok as (Hn & H1 & H2 & H3 & H4 & H5 & H6 & H7 & H8 & H9 & H10).
      unfold totals_ok. simpl.
      rewrite !sum_over_insert by done.
      rewrite map_size_insert_None by done.
      rewrite !of_nat_add.
      rewrite H1, H2, H3, H4, H5, H6, H7, H8, H9, H10.
      split_and!; try ring. lia.
Qed.

Lemma sorted_keys_NoDup {V} (d : gmap string V) : NoDup (sorted_keys d).
Proof.
  unfold sorted_keys. rewrite (py_sorted_perm String.leb).
  apply NoDup_fst_map_to_list.
Qed.

Lemma sorted_keys_length {V} (d : gmap string V) :
  List.length (sorted_keys d) = size d.
Proof.
  unfold sorted_keys.
  rewrite (Permutation_length (py_sorted_perm String.leb _)).
  by rewrite length_fmap, length_map_to_list.
Qed.

(** What a returning [calculate_metrics] has computed. *)
Lemma calculate_metrics_totals qrels results all_metrics metrics :
  calculate_metrics qrels results = Ok (all_metrics, metrics) →
  ∃ t, totals_ok t ∧ query_metrics t = metrics ∧ all_metrics = overall t.
Proof.
  unfold calculate_metrics. intros Hcalc.
  destruct (query_loop qrels results (sorted_keys qrels) totals0) as [t|]
    eqn:Hloop; simpl in Hcalc; [|done].
  injection Hcalc as <- <-. exists t. split; [|done].
  apply (query_loop_totals_ok qrels results (sorted_keys qrels) totals0 t).
  - apply sorted_keys_NoDup.
  - intros q. apply sorted_keys_elem.
  - intros q _. apply lookup_empty.
  - apply totals_ok_initial.
  - exact Hloop.
Qed.

Lemma overall_lookup t :
  (0 < total_queries t)%nat →
  let n := of_nat (total_queries t) in
  overall t !! "map" = Some (sum_ap t / n)%Q
  ∧ overall t !! "Rprec" = Some (sum_rprec t / n)%Q
  ∧ overall t !! "P_5" = Some (sum_p5 t / n)%Q
  ∧ overall t !! "P_10" = Some (sum_p10 t / n)%Q
  ∧ overall t !! "P_30" = Some (sum_p30 t / n)%Q
  ∧ overall t !! "recall" = Some (sum_recall t / n)%Q
  ∧ overall t !! "recip_rank" = Some (sum_recip_rank t / n)%Q
  ∧ overall t !! "num_q" = Some n
  ∧ overall t !! "num_rel" = Some (of_nat (total_relevant t))
  ∧ overall t !! "num_ret" = Some (of_nat (total_retrieved t))
  ∧ overall t !! "num_rel_ret" = Some (of_nat (total_rel_ret t)).
Proof.
  intros Hn. unfold overall.
  rewrite (proj2 (Nat.ltb_lt _ _) Hn). simpl.
  split_and!;
    repeat (rewrite lookup_insert_ne by discriminate);
    by rewrite lookup_insert_eq.
Qed.

Lemma metrics_non_empty_size (metrics : gmap string query_record) :
  metrics ≠ ∅ → (0 < size metrics)%nat.
Proof.
  intros Hne. destruct (size metrics) eqn:Hs; [|lia].
  by apply map_size_empty_iff in Hs.
Qed.

(** X11. When [calculate_metrics] returns and has evaluated a query, every
    aggregate average is the arithmetic mean of the per-query values over
    the evaluated queries, [num_q] is their number, and the three totals are
    the sums of the per-query counts. *)
Theorem calculate_metrics_aggregates (qrels : gmap string (gset string))
    (results : gmap string (list row)) all_metrics metrics :
  calculate_metrics qrels results = Ok (all_metrics, metrics) →
  metrics ≠ ∅ →
  all_metrics !! "num_q" = Some (of_nat (size metrics))
  ∧ is_mean all_metrics "map" q_ap metrics
  ∧ is_mean all_metrics "Rprec" q_Rprec metrics
  ∧ is_mean all_metrics "P_5" q_P_5 metrics
  ∧ is_mean all_metrics "P_10" q_P_10 metrics
  ∧ is_mean all_metrics "P_30" q_P_30 metrics
  ∧ is_mean all_metrics "recall" q_recall metrics
  ∧ is_mean all_metrics "recip_rank" q_recip_rank metrics
  ∧ is_total all_metrics "num_rel" q_num_rel metrics
  ∧ is_total all_metrics "num_ret" q_num_ret metrics
  ∧ is_total all_metrics "num_rel_ret" q_num_rel_ret metrics.
Proof.
  intros Hcalc Hne.
  destruct (calculate_metrics_totals _ _ _ _ Hcalc) as (t & Hok & <- & ->).
  destruct Hok as (Hn & H1 & H2 & H3 & H4 & H5 & H6 & H7 & H8 & H9 & H10).
  pose proof (metrics_non_empty_size _ Hne) as Hpos.
  destruct (overall_lookup t) as
    (L1 & L2 & L3 & L4 & L5 & L6 & L7 & L8 & L9 & L10 & L11); [lia|].
  simpl in *. rewrite <- Hn.
  unfold is_mean, is_total. rewrite <- Hn.
  split_and!; [done|eexists; split; [eassumption|]..].
  - by rewrite H1.
  - by rewrite H6.
  - by rewrite H2.
  - by rewrite H3.
  - by rewrite H4.
  - by rewrite H5.
  - by rewrite H7.
  - done.
  - done.
  - done.
Qed.

Lemma example_calculate_metrics :
  ∃ all_metrics metrics,
    calculate_metrics example_qrels example_results
    = Ok (all_metrics, metrics)
    ∧ metrics ≠ ∅.
Proof.
  destruct (calculate_metrics example_qrels example_results)
    as [[all_metrics metrics]|] eqn:Hcalc; [|by vm_compute in Hcalc].
  exists all_metrics, metrics. split; [done|].
  destruct (calculate_metrics_query _ _ _ _ "Q1" example_relevant
              example_retrieved Hcalc) as (m & _ & Hm);
    [done|done|apply example_relevant_non_empty|].
  intros ->. by rewrite lookup_empty in Hm.
Qed.

Lemma calculate_metrics_aggregates_witness :
  ∃ all_metrics metrics,
    calculate_metrics example_qrels example_results
    = Ok (all_metrics, metrics)
    ∧ metrics ≠ ∅
    ∧ all_metrics !! "num_q" = Some (of_nat (size metrics))
    ∧ is_mean all_metrics "map" q_ap metrics
    ∧ is_total all_metrics "num_rel_ret" q_num_rel_ret metrics.
Proof.
  destruct example_calculate_metrics as (all_metrics & metrics & Hcalc & Hne).
  exists all_metrics, metrics.
  pose proof (calculate_metrics_aggregates example_qrels example_results
                all_metrics metrics Hcalc Hne) as H.
  split_and!; [done|done|apply H..].
Defined.

(** ** Printing after a successful evaluation *)

Lemma omap_length_all_Some {A B} (g : A → option B) (l : list A) :
  (∀ x, x ∈ l → is_Some (g x)) → List.length (omap g l) = List.length l.
Proof.
  induction l as [|x l IH]; intros Hall; [done|].
  cbn [omap list_omap]. destruct (Hall x) as [y Hy]; [left|].
  rewrite Hy. simpl. f_equal. apply IH. intros x' Hx'. apply Hall. by right.
Qed.

Lemma print_per_query_length label field
    (metrics : gmap string query_record) :
  List.length (print_per_query label field metrics) = size metrics.
Proof.
  unfold print_per_query. rewrite omap_length_all_Some.
  - apply sorted_keys_length.
  - intros q [m Hm]%sorted_keys_elem. rewrite Hm. by eexists.
Qed.

Lemma print_overall_complete t :
  (0 < total_queries t)%nat →
  ∃ lines, print_overall (overall t) overall_keys = (lines, Ok ())
           ∧ List.length lines = 11%nat.
Proof.
  intros Hn.
  destruct (overall_lookup t Hn) as
    (L1 & L2 & L3 & L4 & L5 & L6 & L7 & L8 & L9 & L10 & L11).
  unfold overall_keys. cbn [print_overall].
  rewrite L1, L2, L3, L4, L5, L6, L7, L8, L9, L10, L11.
  eexists. split; reflexivity.
Qed.

(** X12. When [calculate_metrics] returns and has evaluated [n] queries,
    [n > 0], [print_results] finds every aggregate it reads and writes
    [7 n + 11] lines, and [main] ends with status 0. *)
Theorem main_reports_after_evaluation (qrels : gmap string (gset string))
    (results : gmap string (list row)) all_metrics metrics :
  calculate_metrics qrels results = Ok (all_metrics, metrics) →
  metrics ≠ ∅ →
  ∃ lines,
    print_results all_metrics metrics = (lines, Ok ())
    ∧ List.length lines = (7 * size metrics + 11)%nat
    ∧ main qrels results = (lines, 0%Z).
Proof.
  intros Hcalc Hne.
  destruct (calculate_metrics_totals _ _ _ _ Hcalc) as (t & Hok & <- & ->).
  destruct Hok as (Hn & _).
  pose proof (metrics_non_empty_size _ Hne) as Hpos.
  destruct (print_overall_complete t) as (lines & Hlines & Hlen); [lia|].
  unfold main. rewrite Hcalc. unfold print_results. rewrite Hlines.
  eexists. split_and!; [reflexivity| |reflexivity].
  rewrite !length_app, !print_per_query_length, Hlen. lia.
Qed.

Lemma main_reports_after_evaluation_witness :
  ∃ lines, main example_qrels example_results = (lines, 0%Z).
Proof.
  destruct example_calculate_metrics as (all_metrics & metrics & Hcalc & Hne).
  destruct (main_reports_after_evaluation example_qrels example_results
              all_metrics metrics Hcalc Hne) as (lines & _ & _ & Hmain).
  by exists lines.
Defined.

(** * Further properties of the per-query metrics *)

Lemma at_ranks_loop_full relevant_docs num_relevant l i rel_ret ps rs :
  num_relevant ≠ 0%nat →
  at_ranks_loop relevant_docs num_relevant l i rel_ret ps rs
  = Ok ((rel_ret + relevant_count relevant_docs l)%nat,
        ps ++ imap (λ k c, (of_nat c / of_nat (i + k + 1))%Q)
                (running_counts relevant_docs rel_ret l),
        rs ++ ((λ c, of_nat c / of_nat num_relevant)%Q
                 <$> running_counts relevant_docs rel_ret l)).
Proof.
  intros Hn. revert i rel_ret ps rs.
  induction l as [|[[doc_id rank] score] l IH]; intros i rel_ret ps rs.
  - simpl. rewrite !app_nil_r. unfold relevant_count. simpl.
    by rewrite Nat.add_0_r.
  - cbn [at_ranks_loop running_counts]. rewrite relevant_count_cons.
    change (doc_id_of (doc_id, rank, score)) with doc_id.
    set (rel_ret' := if bool_decide (doc_id ∈ relevant_docs)
                     then S rel_ret else rel_ret).
    rewrite (truediv_of_nat _ (i + 1)) by lia. cbn [mbind result_bind].
    rewrite (truediv_of_nat _ num_relevant) by done. cbn [mbind result_bind].
    rewrite IH. rewrite <- !app_assoc. rewrite imap_cons, fmap_cons.
    rewrite (imap_ext ((λ k c, (of_nat c / of_nat (i + k + 1))%Q) ∘ S)
               (λ k c, (of_nat c / of_nat (S i + k + 1))%Q)
               (running_counts relevant_docs rel_ret' l)).
    2: { intros k c _. simpl. do 2 f_equal. lia. }
    replace (rel_ret' + relevant_count relevant_docs l)%nat
      with (rel_ret
            + ((if bool_decide (doc_id ∈ relevant_docs) then 1 else 0)
               + relevant_count relevant_docs l))%nat
      by (subst rel_ret'; case_bool_decide; lia).
    replace (i + 0 + 1)%nat with (i + 1)%nat by lia.
    reflexivity.
Qed.

Lemma precision_at_imap relevant_docs l (k : nat) :
  (0 < k)%nat →
  precision_at
    (imap (λ j c, (of_nat c / of_nat (0 + j + 1))%Q)
       (running_counts relevant_docs 0 l)) k
  = Ok (precision_at_cutoff relevant_docs l k).
Proof.
  intros Hk. unfold precision_at, precision_at_cutoff, py_index.
  rewrite length_imap, running_counts_length.
  destruct (k - 1 <? List.length l)%nat eqn:Hlt.
  - apply Nat.ltb_lt in Hlt.
    rewrite (proj2 (Nat.leb_le k _)) by lia.
    rewrite list_lookup_imap, running_counts_lookup by done. simpl.
    replace (S (k - 1)) with k by lia.
    replace (k - 1 + 1)%nat with k by lia. done.
  - apply Nat.ltb_ge in Hlt.
    by rewrite (proj2 (Nat.leb_gt k _)) by lia.
Qed.

Lemma evaluate_query_record relevant_docs retrieved_docs m :
  relevant_docs ≠ ∅ →
  evaluate_query relevant_docs retrieved_docs = Ok m →
  q_num_rel m = size relevant_docs
  ∧ q_num_ret m = List.length retrieved_docs
  ∧ q_num_rel_ret m = relevant_count relevant_docs retrieved_docs
  ∧ q_P_5 m = precision_at_cutoff relevant_docs retrieved_docs 5
  ∧ q_P_10 m = precision_at_cutoff relevant_docs retrieved_docs 10
  ∧ q_P_30 m = precision_at_cutoff relevant_docs retrieved_docs 30
  ∧ final_recall_of
      ((λ c, of_nat c / of_nat (size relevant_docs))%Q
         <$> running_counts relevant_docs 0 retrieved_docs)
    = Ok (q_recall m).
Proof.
  intros Hne. unfold evaluate_query, at_ranks.
  rewrite at_ranks_loop_full by by apply size_non_empty_pos.
  cbn [mbind result_bind app].
  destruct (average_precision _ _); cbn [mbind result_bind]; [|done].
  rewrite !precision_at_imap by lia. cbn [mbind result_bind].
  destruct (final_recall_of _) as [recall|]; cbn [mbind result_bind]; [|done].
  destruct (r_precision _ _); cbn [mbind result_bind]; [|done].
  destruct (reciprocal_rank _ _); cbn [mbind result_bind]; [|done].
  intros Heq.
  apply (f_equal (λ r, match r with Ok x => x | Raise _ => m end)) in Heq.
  subst m. simpl. done.
Qed.

(** X13. In the record of an evaluated query, P_5, P_10 and P_30 are the
    number of relevant rows among the first 5, 10, 30 rows over 5, 10, 30,
    and a hard 0 when the run has fewer rows than the cutoff. *)
Theorem precision_at_fixed_ranks (relevant_docs : gset string)
    (retrieved_docs : list row) (m : query_record) :
  relevant_docs ≠ ∅ →
  evaluate_query relevant_docs retrieved_docs = Ok m →
  q_P_5 m = precision_at_cutoff relevant_docs retrieved_docs 5
  ∧ q_P_10 m = precision_at_cutoff relevant_docs retrieved_docs 10
  ∧ q_P_30 m = precision_at_cutoff relevant_docs retrieved_docs 30.
Proof.
  intros Hne Hm.
  destruct (evaluate_query_record _ _ _ Hne Hm)
    as (_ & _ & _ & H5 & H10 & H30 & _).
  done.
Qed.

Lemma example_evaluate_query :
  ∃ m, evaluate_query example_relevant example_retrieved = Ok m.
Proof. eexists. vm_compute. reflexivity. Qed.

Lemma precision_at_fixed_ranks_witness :
  ∃ m, evaluate_query example_relevant example_retrieved = Ok m
       ∧ q_P_5 m = precision_at_cutoff example_relevant example_retrieved 5
       ∧ q_P_10 m = precision_at_cutoff example_relevant example_retrieved 10
       ∧ q_P_30 m = precision_at_cutoff example_relevant example_retrieved 30.
Proof.
  destruct example_evaluate_query as [m Hm]. exists m. split; [done|].
  exact (precision_at_fixed_ranks example_relevant example_retrieved m
           example_relevant_non_empty Hm).
Defined.

Lemma final_recall_of_counts relevant_docs l :
  final_recall_of
    ((λ c, of_nat c / of_nat (size relevant_docs))%Q
       <$> running_counts relevant_docs 0 l)
  = Ok (match l with
        | [] => 0
        | _ => of_nat (relevant_count relevant_docs l)
               / of_nat (size relevant_docs)
        end)%Q.
Proof.
  destruct l as [|r l]; [done|].
  remember ((λ c, of_nat c / of_nat (size relevant_docs))%Q
              <$> running_counts relevant_docs 0 (r :: l)) as rs eqn:Hrs.
  assert (Hlen : List.length rs = S (List.length l)).
  { subst rs. by rewrite length_fmap, running_counts_length. }
  destruct rs as [|x rs']; [simpl in Hlen; lia|].
  unfold final_recall_of, py_index. rewrite Hlen, Hrs.
  rewrite list_lookup_fmap, running_counts_lookup by (simpl; lia).
  replace (S (S (List.length l) - 1)) with (List.length (r :: l))
    by (simpl; lia).
  rewrite firstn_all. done.
Qed.

(** X14. In the record of an evaluated query, [num_rel] is the number of
    relevant documents, [num_ret] the number of rows, [num_rel_ret] the
    number of relevant rows, never above [num_ret]; and the recall is
    [num_rel_ret / num_rel], or 0 for an empty run. *)
Theorem query_record_counts_and_recall (relevant_docs : gset string)
    (retrieved_docs : list row) (m : query_record) :
  relevant_docs ≠ ∅ →
  evaluate_query relevant_docs retrieved_docs = Ok m →
  q_num_rel m = size relevant_docs
  ∧ q_num_ret m = List.length retrieved_docs
  ∧ q_num_rel_ret m = relevant_count relevant_docs retrieved_docs
  ∧ (q_num_rel_ret m ≤ q_num_ret m)%nat
  ∧ q_recall m
    = match retrieved_docs with
      | [] => 0%Q
      | _ => (of_nat (q_num_rel_ret m) / of_nat (q_num_rel m))%Q
      end.
Proof.
  intros Hne Hm.
  destruct (evaluate_query_record _ _ _ Hne Hm)
    as (Hrel & Hret & Hrr & _ & _ & _ & Hrecall).
  rewrite final_recall_of_counts in Hrecall.
  injection Hrecall as Hrecall.
  rewrite Hrel, Hret, Hrr. split_and!; [done..| |done].
  apply relevant_count_le_length.
Qed.

Lemma query_record_counts_and_recall_witness :
  ∃ m, evaluate_query example_relevant example_retrieved = Ok m
       ∧ q_num_rel m = size example_relevant
       ∧ q_num_rel_ret m
         = relevant_count example_relevant example_retrieved
       ∧ q_recall m = (of_nat (q_num_rel_ret m) / of_nat (q_num_rel m))%Q.
Proof.
  destruct example_evaluate_query as [m Hm]. exists m. split; [done|].
  pose proof (query_record_counts_and_recall example_relevant
                example_retrieved m example_relevant_non_empty Hm) as H.
  split_and!; apply H.
Defined.

(** ** Mean average precision *)

Lemma average_precision_range relevant_docs retrieved_docs ap :
  NoDup (doc_id_of <$> retrieved_docs) →
  relevant_docs ≠ ∅ →
  average_precision relevant_docs retrieved_docs = Ok ap →
  (0 <= ap)%Q ∧ (ap <= 1)%Q.
Proof.
  intros Hnd Hne.
  destruct (ap_loop_bounds relevant_docs retrieved_docs 0 0 0%Q)
    as (v & Hloop & Hlo & Hhi); [lia|].
  pose proof (relevant_count_le_size relevant_docs _ Hnd) as Hcount.
  apply of_nat_le in Hcount.
  pose proof (size_non_empty_pos _ Hne) as Hn.
  unfold average_precision. rewrite Hloop. simpl.
  rewrite (proj2 (Nat.ltb_lt 0 _)) by lia.
  rewrite truediv_of_nat by done. intros [= <-].
  assert (Hpos : (0 < of_nat (size relevant_docs))%Q)
    by (apply of_nat_pos; lia).
  split.
  - apply Qle_shift_div_l; [done|]. lra.
  - apply Qle_shift_div_r; [done|]. lra.
Qed.

Lemma calculate_metrics_lookup qrels results all_metrics metrics q m :
  calculate_metrics qrels results = Ok (all_metrics, metrics) →
  metrics !! q = Some m →
  ∃ rel docs,
    qrels !! q = Some rel ∧ results !! q = Some docs ∧ rel ≠ ∅
    ∧ evaluate_query rel docs = Ok m.
Proof.
  intros Hcalc Hm.
  assert (Hqual : qualifies qrels results q).
  { unfold calculate_metrics in Hcalc.
    destruct (query_loop qrels results (sorted_keys qrels) totals0) as [t|]
      eqn:Hloop; simpl in Hcalc; [|done].
    injection Hcalc as _ <-.
    destruct (query_loop_domain _ _ _ _ _ q
                (λ q', proj1 (sorted_keys_elem qrels q')) Hloop)
      as [Hinit|?]; [by eexists| |done].
    simpl in Hinit. rewrite lookup_empty in Hinit. by destruct Hinit. }
  destruct Hqual as (rel & docs & Hrel & Hdocs & Hne).
  destruct (calculate_metrics_query _ _ _ _ q rel docs Hcalc Hrel Hdocs Hne)
    as (m' & Hm' & Hlook).
  exists rel, docs. split_and!; [done..|]. congruence.
Qed.

Lemma sum_list_range (f : query_record → Q)
    (l : list (string * query_record)) :
  Forall (λ p, (0 <= f p.2)%Q ∧ (f p.2 <= 1)%Q) l →
  (0 <= foldr (λ p acc, f p.2 + acc) 0 l)%Q
  ∧ (foldr (λ p acc, f p.2 + acc) 0 l <= of_nat (List.length l))%Q.
Proof.
  induction 1 as [|p l [Hlo Hhi] _ [IHlo IHhi]]; simpl.
  - rewrite of_nat_0. split; lra.
  - rewrite of_nat_S. split; lra.
Qed.

(** X15. When no run lists a document twice, the mean average precision
    that [calculate_metrics] reports lies between 0 and 1. *)
Theorem mean_average_precision_range (qrels : gmap string (gset string))
    (results : gmap string (list row)) all_metrics metrics :
  calculate_metrics qrels results = Ok (all_metrics, metrics) →
  metrics ≠ ∅ →
  (∀ q docs, results !! q = Some docs → NoDup (doc_id_of <$> docs)) →
  ∃ v, all_metrics !! "map" = Some v ∧ (0 <= v)%Q ∧ (v <= 1)%Q.
Proof.
  intros Hcalc Hne Hnd.
  destruct (calculate_metrics_totals _ _ _ _ Hcalc) as (t & Hok & Hqm & Hall).
  destruct Hok as (Hn & Hap & _).
  pose proof (metrics_non_empty_size _ Hne) as Hpos.
  rewrite Hqm in Hn, Hap.
  destruct (overall_lookup t) as (Lmap & _); [lia|].
  simpl in Lmap. rewrite <- Hall in Lmap.
  eexists. split; [exact Lmap|].
  destruct (sum_list_range q_ap (map_to_list metrics)) as [Hlo Hhi].
  { apply Forall_forall. intros [q m] Hqm'%elem_of_map_to_list. simpl.
    destruct (calculate_metrics_lookup _ _ _ _ q m Hcalc Hqm')
      as (rel & docs & _ & Hdocs & Hrel & Hm).
    destruct (evaluate_query_fields _ _ _ Hm) as (Hapm & _).
    by apply (average_precision_range rel docs); [apply (Hnd q)|..]. }
  rewrite length_map_to_list in Hhi.
  fold (sum_over q_ap metrics) in Hlo, Hhi.
  rewrite Hap, Hn.
  assert (Hsz : (0 < of_nat (size metrics))%Q) by by apply of_nat_pos.
  split.
  - apply Qle_shift_div_l; [done|]. lra.
  - apply Qle_shift_div_r; [done|]. lra.
Qed.

Lemma mean_average_precision_range_witness :
  ∃ v all_metrics metrics,
    calculate_metrics example_qrels example_results
    = Ok (all_metrics, metrics)
    ∧ all_metrics !! "map" = Some v ∧ (0 <= v)%Q ∧ (v <= 1)%Q.
Proof.
  destruct example_calculate_metrics as (all_metrics & metrics & Hcalc & Hne).
  destruct (mean_average_precision_range example_qrels example_results
              all_metrics metrics Hcalc Hne) as (v & Hv).
  - intros q docs Hq. unfold example_results in Hq.
    apply lookup_singleton_Some in Hq as [_ <-].
    refine (bool_decide_unpack _ _). vm_compute. exact I.
  - by exists v, all_metrics, metrics.
Defined.

(** * Properties of the loaders *)

Lemma rank_le_total x y : rank_le x y = true ∨ rank_le y x = true.
Proof. unfold rank_le. rewrite !Z.leb_le. lia. Qed.

Lemma rank_le_trans x y z :
  rank_le x y = true → rank_le y z = true → rank_le x z = true.
Proof. unfold rank_le. rewrite !Z.leb_le. lia. Qed.

Section LoaderFacts.
Context (py_int : string → result Z) (py_float : string → result Q).

Lemma load_results_loop_non_empty lines results results' :
  (∀ q rows, results !! q = Some rows → rows ≠ []) →
  load_results_loop py_int py_float lines results = Ok results' →
  ∀ q rows, results' !! q = Some rows → rows ≠ [].
Proof.
  revert results. induction lines as [|line lines IH]; intros results Hinv;
    cbn [load_results_loop].
  - by intros [= <-].
  - destruct (String.eqb (strip line) ""); [by apply IH|].
    destruct (6 <=? _)%nat; [|by apply IH].
    destruct (py_index _ 0) as [query_id|]; cbn [mbind result_bind]; [|done].
    destruct (py_index _ 2) as [doc_id|]; cbn [mbind result_bind]; [|done].
    destruct (py_index _ 3) as [f3|]; cbn [mbind result_bind]; [|done].
    destruct (py_int f3) as [rank|]; cbn [mbind result_bind]; [|done].
    destruct (py_index _ 4) as [f4|]; cbn [mbind result_bind]; [|done].
    destruct (py_float f4) as [score|]; cbn [mbind result_bind]; [|done].
    apply IH. intros q rows.
    destruct (decide (query_id = q)) as [->|Hq].
    + rewrite lookup_insert_eq. intros [= <-].
      by destruct (default [] (results !! q)).
    + rewrite lookup_insert_ne by done. apply Hinv.
Qed.

(** X16. The runs [load_results] returns are sorted: in every run the rank
    fields never decrease along the list, whatever the order of the lines
    in the file; and no run is empty. *)
Theorem load_results_sorted_by_rank (lines : list string)
    (results : gmap string (list row)) :
  load_results py_int py_float lines = Ok results →
  ∀ q rows,
    results !! q = Some rows →
    rows ≠ []
    ∧ StronglySorted (λ x y, (rank_of x <= rank_of y)%Z) rows.
Proof.
  unfold load_results.
  destruct (load_results_loop py_int py_float lines ∅) as [loaded|]
    eqn:Hloop; cbn [mbind result_bind]; [|done].
  intros [= <-] q rows Hrows.
  rewrite lookup_fmap in Hrows.
  destruct (loaded !! q) as [unsorted|] eqn:Hq; [|done].
  injection Hrows as <-. split.
  - assert (Hne : unsorted ≠ []).
    { eapply load_results_loop_non_empty; [|exact Hloop|exact Hq].
      intros q' rows'. by rewrite lookup_empty. }
    intros Hnil. apply Hne.
    apply Permutation_nil_r. rewrite <- Hnil.
    symmetry. apply py_sorted_perm.
  - eapply StronglySorted_weaken;
      [|apply (py_sorted_sorted rank_le rank_le_total rank_le_trans)].
    intros x y. unfold rank_le. apply Z.leb_le.
Qed.

Lemma load_results_loop_skips line l1 l2 results :
  strip line = "" ∨ (List.length (split (strip line)) < 6)%nat →
  load_results_loop py_int py_float (l1 ++ line :: l2) results
  = load_results_loop py_int py_float (l1 ++ l2) results.
Proof.
  intros Hline. revert results.
  induction l1 as [|line1 l1 IH]; intros results.
  - cbn [app load_results_loop].
    destruct Hline as [->|Hshort]; [done|].
    destruct (String.eqb (strip line) ""); [done|].
    by rewrite (proj2 (Nat.leb_gt _ _) Hshort).
  - cbn [app load_results_loop].
    destruct (String.eqb (strip line1) ""); [apply IH|].
    destruct (6 <=? _)%nat; [|apply IH].
    destruct (py_index _ 0); cbn [mbind result_bind]; [|done].
    destruct (py_index _ 2); cbn [mbind result_bind]; [|done].
    destruct (py_index _ 3) as [f3|]; cbn [mbind result_bind]; [|done].
    destruct (py_int f3); cbn [mbind result_bind]; [|done].
    destruct (py_index _ 4) as [f4|]; cbn [mbind result_bind]; [|done].
    destruct (py_float f4); cbn [mbind result_bind]; [|done].
    apply IH.
Qed.

(** X17. A line of the results file that is blank, or has fewer than six
    whitespace-separated fields, is ignored: the file with the line and the
    file without it load to the same result, and its fields are never
    converted to numbers. *)
Theorem load_results_ignores_short_lines (line : string)
    (l1 l2 : list string) :
  strip line = "" ∨ (List.length (split (strip line)) < 6)%nat →
  load_results py_int py_float (l1 ++ line :: l2)
  = load_results py_int py_float (l1 ++ l2).
Proof.
  intros Hline. unfold load_results.
  by rewrite load_results_loop_skips.
Qed.

End LoaderFacts.

Section QrelsFacts.
Context (py_int : string → result Z).

Lemma load_qrels_loop_non_empty line_num lines qrels qrels' :
  (∀ q rel, qrels !! q = Some rel → rel ≠ ∅) →
  load_qrels_loop py_int line_num lines qrels = Ok qrels' →
  ∀ q rel, qrels' !! q = Some rel → rel ≠ ∅.
Proof.
  revert line_num qrels.
  induction lines as [|line lines IH]; intros line_num qrels Hinv;
    cbn [load_qrels_loop].
  - by intros [= <-].
  - destruct (String.eqb (strip line) ""); [by apply IH|].
    destruct (_ && _); [by apply IH|].
    destruct (3 <=? _)%nat; [|by apply IH].
    destruct (py_index _ 0) as [f0|]; cbn [mbind result_bind]; [|done].
    destruct (py_index _ (_ - 2)) as [f1|]; cbn [mbind result_bind]; [|done].
    destruct (py_index _ (_ - 1)) as [f2|]; cbn [mbind result_bind]; [|done].
    destruct (py_int (strip f2)) as [relevance|]; cbn [mbind result_bind];
      [|done].
    destruct (0 <? relevance)%Z; [|by apply IH].
    apply IH. intros q rel. unfold add_relevant.
    destruct (decide (strip f0 = q)) as [->|Hq].
    + rewrite lookup_insert_eq. intros [= <-]. set_solver.
    + rewrite lookup_insert_ne by done. apply Hinv.
Qed.

(** X18. [load_qrels] stores a query only together with a relevant
    document: no relevant set it returns is empty, so the test for an empty
    relevant set in [calculate_metrics] never fires on loaded judgments. *)
Theorem load_qrels_sets_non_empty (lines : list string)
    (qrels : gmap string (gset string)) :
  load_qrels py_int lines = Ok qrels →
  ∀ q rel, qrels !! q = Some rel → rel ≠ ∅.
Proof.
  apply load_qrels_loop_non_empty. intros q rel. by rewrite lookup_empty.
Qed.

End QrelsFacts.

Lemma load_results_sorted_by_rank_witness :
  ∃ results,
    load_results int_of_digits float_of_digits example_results_file
    = Ok results
    ∧ ∀ q rows,
        results !! q = Some rows →
        rows ≠ []
        ∧ StronglySorted (λ x y, (rank_of x <= rank_of y)%Z) rows.
Proof.
  destruct (load_results int_of_digits float_of_digits example_results_file)
    as [results|] eqn:Hload; [|by vm_compute in Hload].
  exists results. split; [done|].
  exact (load_results_sorted_by_rank int_of_digits float_of_digits
           example_results_file results Hload).
Defined.

Lemma load_results_ignores_short_lines_witness :
  load_results int_of_digits float_of_digits
    (["1 Q0 D7 2 11 run"] ++ "" :: ["1 Q0 D4 1 12 run"])
  = load_results int_of_digits float_of_digits
      (["1 Q0 D7 2 11 run"] ++ ["1 Q0 D4 1 12 run"]).
Proof.
  apply (load_results_ignores_short_lines int_of_digits float_of_digits "").
  left. reflexivity.
Defined.

Lemma load_qrels_sets_non_empty_witness :
  ∃ qrels,
    load_qrels int_of_digits example_qrels_file = Ok qrels
    ∧ ∀ q rel, qrels !! q = Some rel → rel ≠ ∅.
Proof.
  destruct (load_qrels int_of_digits example_qrels_file) as [qrels|]
    eqn:Hload; [|by vm_compute in Hload].
  exists qrels. split; [done|].
  exact (load_qrels_sets_non_empty int_of_digits example_qrels_file qrels
           Hload).
Defined.

(** * Properties of [calculate_map] *)

Lemma calculate_average_precision_returns relevant_docs retrieved_docs :
  ∃ ap, EvaluateMap.calculate_average_precision relevant_docs retrieved_docs
        = Ok ap.
Proof.
  unfold EvaluateMap.calculate_average_precision.
  case_bool_decide as Hne; [by eexists|].
  rewrite precision_loop_ap_loop.
  destruct (ap_loop_bounds relevant_docs retrieved_docs 0 0 0%Q)
    as (v & -> & _); [lia|].
  cbn [mbind result_bind].
  destruct (_ =? 0)%nat; [by eexists|].
  eexists. by apply truediv_of_nat, size_non_empty_pos.
Qed.

Lemma evaluated_nil qrels results :
  (∀ q rel, (q, rel) ∈ qrels → results !! q = None) →
  evaluated qrels results = [].
Proof.
  unfold evaluated. induction qrels as [|[q rel] qrels IH]; intros Hnone;
    [done|].
  cbn [omap list_omap]. rewrite (Hnone q rel) by left. simpl.
  apply IH. intros q' rel' Hin. apply (Hnone q' rel'). by right.
Qed.

Lemma map_loop_returns qrels results st :
  ∃ st',
    EvaluateMapRun.map_loop qrels results st = Ok st'
    ∧ EvaluateMapRun.num_queries st'
      = (EvaluateMapRun.num_queries st
         + List.length (evaluated qrels results))%nat
    ∧ (evaluated qrels results = [] → st' = st).
Proof.
  revert st. induction qrels as [|[q rel] qrels IH]; intros st.
  - exists st. simpl. split_and!; [done|lia|done].
  - cbn [EvaluateMapRun.map_loop]. unfold evaluated in *.
    cbn [omap list_omap].
    destruct (results !! q) as [docs|]; simpl.
    + destruct (calculate_average_precision_returns rel docs) as [ap ->].
      cbn [mbind result_bind].
      destruct (IH {|
        EvaluateMapRun.total_ap := (EvaluateMapRun.total_ap st + ap)%Q;
        EvaluateMapRun.num_queries := EvaluateMapRun.num_queries st + 1;
        EvaluateMapRun.query_aps :=
          EvaluateMapRun.set_item q ap (EvaluateMapRun.query_aps st);
        EvaluateMapRun.printed :=
          EvaluateMapRun.printed st
          ++ [EvaluateMapRun.QueryLine q ap (size rel) (List.length docs)] |})
        as (st' & -> & Hn & _).
      exists st'. simpl in Hn. split_and!; [done|lia|done].
    + apply IH.
Qed.

(** X19. [calculate_map] raises nothing, whatever the judgments and the
    results: the mean is divided by the number of evaluated queries only
    when there is one.  When no judged query has rows in the results, it
    returns the mean 0.0 with no per-query value and prints no query line. *)
Theorem calculate_map_never_raises (qrels : list (string * gset string))
    (results : gmap string (list row)) :
  ∃ map_score query_aps lines,
    EvaluateMapRun.calculate_map qrels results
    = Ok (map_score, query_aps, lines)
    ∧ ((∀ q rel, (q, rel) ∈ qrels → results !! q = None) →
       map_score = 0%Q ∧ query_aps = [] ∧ lines = []).
Proof.
  unfold EvaluateMapRun.calculate_map.
  destruct (map_loop_returns qrels results (EvaluateMapRun.MapState 0 0 [] []))
    as (st & -> & Hn & Hsame).
  cbn [mbind result_bind].
  destruct (EvaluateMapRun.num_queries st =? 0)%nat eqn:Hz.
  - eexists _, _, _. split; [reflexivity|].
    intros Hnone. rewrite (Hsame (evaluated_nil _ _ Hnone)). done.
  - apply Nat.eqb_neq in Hz.
    rewrite truediv_of_nat by done. cbn [mbind result_bind].
    eexists _, _, _. split; [reflexivity|].
    intros Hnone. rewrite (evaluated_nil _ _ Hnone) in Hn. simpl in Hn. lia.
Qed.

Lemma average_precision_agree relevant_docs retrieved_docs ap :
  relevant_docs ≠ ∅ →
  average_precision relevant_docs retrieved_docs = Ok ap →
  (average_precision_value relevant_docs retrieved_docs == ap)%Q.
Proof.
  intros Hne.
  unfold average_precision_value, average_precision,
    EvaluateMap.calculate_average_precision.
  rewrite bool_decide_eq_false_2 by done.
  rewrite precision_loop_ap_loop.
  destruct (ap_loop_bounds relevant_docs retrieved_docs 0 0 0%Q)
    as (v & -> & Hlo & Hhi); [lia|].
  cbn [mbind result_bind].
  pose proof (size_non_empty_pos _ Hne) as Hn.
  rewrite (proj2 (Nat.ltb_lt 0 _)) by lia.
  rewrite truediv_of_nat by done. intros [= <-].
  destruct (_ =? 0)%nat eqn:Hc; [|reflexivity].
  apply Nat.eqb_eq in Hc. simpl in Hc. rewrite Hc, of_nat_0 in Hhi.
  assert (Hv : (v == 0)%Q) by lra.
  rewrite Hv. unfold Qdiv. ring.
Qed.

Lemma evaluated_keys_elem qrels results q :
  q ∈ (λ e : string * gset string * list row, e.1.1) <$> evaluated qrels results
  ↔ ∃ rel docs, (q, rel) ∈ qrels ∧ results !! q = Some docs.
Proof.
  unfold evaluated. rewrite list_elem_of_fmap. split.
  - intros ([[q' rel] docs] & -> & Hin). simpl.
    apply list_elem_of_omap in Hin as ([q0 rel0] & Hin & Hsome).
    destruct (results !! q0) as [docs0|] eqn:Hd; [|done].
    injection Hsome as <- <- <-. by exists rel0, docs0.
  - intros (rel & docs & Hin & Hdocs). exists (q, rel, docs). split; [done|].
    apply list_elem_of_omap. exists (q, rel). split; [done|].
    by rewrite Hdocs.
Qed.

Lemma evaluated_keys_NoDup qrels results :
  NoDup qrels.*1 →
  NoDup ((λ e : string * gset string * list row, e.1.1)
           <$> evaluated qrels results).
Proof.
  unfold evaluated. induction qrels as [|[q rel] qrels IH]; intros Hnd.
  - constructor.
  - rewrite fmap_cons in Hnd. apply NoDup_cons in Hnd as [Hq Hnd].
    cbn [omap list_omap]. destruct (results !! q) as [docs|]; simpl.
    + constructor; [|by apply IH].
      intros Hin. apply Hq.
      apply (evaluated_keys_elem qrels results q) in Hin
        as (rel' & _ & Hin & _).
      apply list_elem_of_fmap. by exists (q, rel').
    + by apply IH.
Qed.

Lemma set_item_fresh query_id ap (query_aps : list (string * Q)) :
  query_id ∉ query_aps.*1 →
  EvaluateMapRun.set_item query_id ap query_aps
  = query_aps ++ [(query_id, ap)].
Proof.
  induction query_aps as [|[q v] query_aps IH]; intros Hfresh; [done|].
  cbn [EvaluateMapRun.set_item]. rewrite fmap_cons in Hfresh.
  apply not_elem_of_cons in Hfresh as [Hq Hfresh].
  destruct (String.eqb q query_id) eqn:Heq.
  - apply String.eqb_eq in Heq. simpl in Hq. congruence.
  - by rewrite IH.
Qed.

(** The per-query dictionary of [calculate_map]: one item per evaluated
    query, in the order of the judgments. *)
Lemma map_loop_query_aps qrels results st st' :
  NoDup qrels.*1 →
  (∀ q, q ∈ qrels.*1 → q ∉ (EvaluateMapRun.query_aps st).*1) →
  EvaluateMapRun.map_loop qrels results st = Ok st' →
  EvaluateMapRun.query_aps st'
  = EvaluateMapRun.query_aps st
    ++ ((λ '(q, rel, docs), (q, average_precision_value rel docs))
          <$> evaluated qrels results).
Proof.
  revert st. induction qrels as [|[q rel] qrels IH]; intros st Hnd Hfresh.
  - simpl. intros [= <-]. by rewrite app_nil_r.
  - rewrite fmap_cons in Hnd, Hfresh. apply NoDup_cons in Hnd as [Hq Hnd].
    cbn [EvaluateMapRun.map_loop]. unfold evaluated in *.
    cbn [omap list_omap].
    destruct (results !! q) as [docs|]; simpl.
    + destruct (EvaluateMap.calculate_average_precision rel docs) as [ap|]
        eqn:Hap; cbn [mbind result_bind]; [|done].
      assert (Hval : average_precision_value rel docs = ap)
        by (unfold average_precision_value; by rewrite Hap).
      intros Hloop. rewrite (IH _ Hnd) with (2 := Hloop).
      * cbn [EvaluateMapRun.query_aps].
        rewrite set_item_fresh by (apply Hfresh; left).
        rewrite <- app_assoc. simpl. by rewrite Hval.
      * intros q' Hq'. cbn [EvaluateMapRun.query_aps].
        rewrite set_item_fresh by (apply Hfresh; left).
        rewrite fmap_app, elem_of_app. simpl.
        intros [Hold|Hnew%list_elem_of_singleton].
        -- by apply (Hfresh q'); [right|].
        -- apply Hq. by rewrite <- Hnew.
    + apply IH; [done|]. intros q' Hq'. apply Hfresh. by right.
Qed.

(** X20. The two evaluation programs agree query by query: for judgments
    without an empty relevant set, whenever [calculate_metrics] returns,
    the dictionary [query_aps] of [calculate_map] has an item for exactly
    the queries that have a record in [query_metrics], and its value is the
    average precision of that record. *)
Theorem calculate_map_same_average_precisions
    (qrels : list (string * gset string)) (results : gmap string (list row))
    all_metrics metrics :
  NoDup qrels.*1 →
  (∀ q rel, (q, rel) ∈ qrels → rel ≠ ∅) →
  calculate_metrics (list_to_map qrels) results = Ok (all_metrics, metrics) →
  ∃ map_score query_aps lines,
    EvaluateMapRun.calculate_map qrels results
    = Ok (map_score, query_aps, lines)
    ∧ NoDup query_aps.*1
    ∧ (∀ q, q ∈ query_aps.*1 ↔ is_Some (metrics !! q))
    ∧ (∀ q ap m,
         (q, ap) ∈ query_aps → metrics !! q = Some m → (ap == q_ap m)%Q).
Proof.
  intros Hnd Hsets Hcalc.
  assert (Hqrels : ∀ q rel,
            (list_to_map qrels : gmap string (gset string)) !! q = Some rel
            ↔ (q, rel) ∈ qrels)
    by (intros q rel; symmetry; by apply elem_of_list_to_map).
  destruct (map_loop_returns qrels results (EvaluateMapRun.MapState 0 0 [] []))
    as (st & Hloop & _ & _).
  assert (Haps : EvaluateMapRun.query_aps st
                 = (λ '(q, rel, docs), (q, average_precision_value rel docs))
                     <$> evaluated qrels results).
  { rewrite (map_loop_query_aps qrels results _ st Hnd) with (2 := Hloop);
      [done|].
    intros q _. simpl. apply not_elem_of_nil. }
  assert (Hkeys : (EvaluateMapRun.query_aps st).*1
                  = (λ e : string * gset string * list row, e.1.1)
                      <$> evaluated qrels results).
  { rewrite Haps, <- list_fmap_compose.
    apply list_fmap_ext. by intros ? [[q rel] docs]. }
  assert (Hspec : NoDup (EvaluateMapRun.query_aps st).*1
    ∧ (∀ q, q ∈ (EvaluateMapRun.query_aps st).*1 ↔ is_Some (metrics !! q))
    ∧ (∀ q ap m,
         (q, ap) ∈ EvaluateMapRun.query_aps st → metrics !! q = Some m →
         (ap == q_ap m)%Q)).
  { split_and!.
    - rewrite Hkeys. by apply evaluated_keys_NoDup.
    - intros q. rewrite Hkeys, evaluated_keys_elem. split.
      + intros (rel & docs & Hin & Hdocs).
        destruct (calculate_metrics_query _ _ _ _ q rel docs Hcalc)
          as (m & _ & ->); [by apply Hqrels|done|by eapply Hsets|].
        by eexists.
      + intros [m Hm].
        destruct (calculate_metrics_lookup _ _ _ _ _ _ Hcalc Hm)
          as (rel & docs & Hrel & Hdocs & _).
        exists rel, docs. split; [by apply Hqrels|done].
    - intros q ap m Hin Hm. rewrite Haps in Hin.
      apply list_elem_of_fmap in Hin as ([[q' rel] docs] & [= -> ->] & Hin).
      unfold evaluated in Hin.
      apply list_elem_of_omap in Hin as ([q0 rel0] & Hin & Hsome).
      destruct (results !! q0) as [docs0|] eqn:Hd; [|done].
      injection Hsome as -> -> ->.
      destruct (calculate_metrics_query _ _ _ _ q' rel docs Hcalc)
        as (m' & Hm' & Hlook); [by apply Hqrels|done|by eapply Hsets|].
      assert (m' = m) as -> by congruence.
      destruct (evaluate_query_fields _ _ _ Hm') as (Hap & _).
      apply average_precision_agree; [by eapply Hsets|done]. }
  unfold EvaluateMapRun.calculate_map. rewrite Hloop.
  cbn [mbind result_bind].
  destruct (EvaluateMapRun.num_queries st =? 0)%nat eqn:Hz.
  - by eexists _, _, _.
  - apply Nat.eqb_neq in Hz.
    rewrite truediv_of_nat by done. cbn [mbind result_bind].
    by eexists _, _, _.
Qed.

Lemma calculate_map_same_average_precisions_witness :
  ∃ map_score query_aps lines all_metrics metrics,
    calculate_metrics (list_to_map [("Q1", example_relevant)])
      example_results = Ok (all_metrics, metrics)
    ∧ EvaluateMapRun.calculate_map [("Q1", example_relevant)] example_results
      = Ok (map_score, query_aps, lines)
    ∧ (∀ q, q ∈ query_aps.*1 ↔ is_Some (metrics !! q))
    ∧ (∀ q ap m,
         (q, ap) ∈ query_aps → metrics !! q = Some m → (ap == q_ap m)%Q).
Proof.
  destruct (calculate_metrics (list_to_map [("Q1", example_relevant)])
              example_results) as [[all_metrics metrics]|] eqn:Hcalc;
    [|by vm_compute in Hcalc].
  destruct (calculate_map_same_average_precisions
              [("Q1", example_relevant)] example_results all_metrics metrics)
    as (map_score & query_aps & lines & Hmap & _ & Hdom & Hval).
  - repeat constructor. by intros ?%elem_of_nil.
  - intros q rel [[= -> ->]|?%elem_of_nil]%elem_of_cons; [|done].
    apply example_relevant_non_empty.
  - exact Hcalc.
  - by exists map_score, query_aps, lines, all_metrics, metrics.
Defined.

Lemma add_relevant_ok query_id doc_id qrels :
  judgments_ok qrels →
  judgments_ok (EvaluateMapRun.add_relevant query_id doc_id qrels).
Proof.
  intros [Hnd Hne]. induction qrels as [|[q s] qrels IH].
  - split; simpl.
    + apply NoDup_singleton.
    + repeat constructor. simpl. set_solver.
  - rewrite fmap_cons in Hnd. apply NoDup_cons in Hnd as [Hq Hnd].
    apply Forall_cons in Hne as [Hs Hne].
    cbn [EvaluateMapRun.add_relevant].
    destruct (String.eqb q query_id) eqn:Heq.
    + split.
      * rewrite fmap_cons. by apply NoDup_cons.
      * constructor; [simpl; set_solver|done].
    + apply String.eqb_neq in Heq.
      destruct (IH Hnd Hne) as [IHnd IHne]. split.
      * rewrite fmap_cons. apply NoDup_cons. split; [|done].
        simpl. intros Hin. apply Hq.
        clear -Hin Heq. induction qrels as [|[q' s'] qrels IH]; simpl in *.
        -- apply list_elem_of_singleton in Hin. congruence.
        -- destruct (String.eqb q' query_id); simpl in *.
           ++ done.
           ++ apply elem_of_cons in Hin as [->|Hin]; [left|right; by apply IH].
      * by constructor.
Qed.

Section EvaluateMapLoaderFacts.
Context (py_int : string → result Z).

Lemma evaluate_map_load_qrels_loop_ok line_num lines qrels qrels' :
  judgments_ok qrels →
  EvaluateMapRun.load_qrels_loop py_int line_num lines qrels = Ok qrels' →
  judgments_ok qrels'.
Proof.
  revert line_num qrels.
  induction lines as [|line lines IH]; intros line_num qrels Hok;
    cbn [EvaluateMapRun.load_qrels_loop].
  - by intros [= <-].
  - destruct (_ && _); [by apply IH|].
    destruct (String.eqb (strip line) ""); [by apply IH|].
    destruct (3 <=? _)%nat; [|by apply IH].
    destruct (py_index _ 0) as [f0|]; cbn [mbind result_bind]; [|done].
    destruct (py_index _ 1) as [f1|]; cbn [mbind result_bind]; [|done].
    destruct (py_index _ 2) as [f2|]; cbn [mbind result_bind]; [|done].
    destruct (py_int (strip f2)) as [relevance|]; cbn [mbind result_bind];
      [|done].
    destruct (0 <? relevance)%Z; [|by apply IH].
    apply IH. by apply add_relevant_ok.
Qed.

(** X21. The judgments [load_qrels] of evaluate_map.py returns have
    distinct query ids and no empty relevant set, so the test for an empty
    relevant set in [calculate_average_precision] never fires on them. *)
Theorem evaluate_map_load_qrels_ok (lines : list string)
    (qrels : list (string * gset string)) :
  EvaluateMapRun.load_qrels py_int lines = Ok qrels →
  NoDup qrels.*1 ∧ ∀ q rel, (q, rel) ∈ qrels → rel ≠ ∅.
Proof.
  intros Hload.
  destruct (evaluate_map_load_qrels_loop_ok 0 lines [] qrels) as [Hnd Hne];
    [split; constructor|exact Hload|].
  split; [done|]. intros q rel Hin.
  by apply (proj1 (Forall_forall _ _) Hne (q, rel)).
Qed.

End EvaluateMapLoaderFacts.

Lemma evaluate_map_load_qrels_ok_witness :
  ∃ qrels,
    EvaluateMapRun.load_qrels int_of_digits example_qrels_file = Ok qrels
    ∧ NoDup qrels.*1 ∧ ∀ q rel, (q, rel) ∈ qrels → rel ≠ ∅.
Proof.
  destruct (EvaluateMapRun.load_qrels int_of_digits example_qrels_file)
    as [qrels|] eqn:Hload; [|by vm_compute in Hload].
  exists qrels. split; [done|].
  exact (evaluate_map_load_qrels_ok int_of_digits example_qrels_file qrels
           Hload).
Defined.
